(** * astrbot_plugin_splitter: the message splitter of [main.py]

    A shallow embedding of [MessageSplitterPlugin]: the cleaner and the
    dispatch of [on_decorating_result], [save_history] and [split_chain].

    Python's [re] and [json] modules, the transport and the conversation
    store are collaborators of the plugin.  They are the interfaces
    [ReEngine] and [Host] here; the module [MiniRe] gives an executable
    regular expression engine for a fragment of Python's syntax, and
    [Fixture] hosts to run the plugin on concrete replies. *)

From Stdlib Require Import List String Ascii Bool Arith Lia QArith.
Import ListNotations.
Local Close Scope Q_scope.
Local Open Scope string_scope.
Local Open Scope list_scope.
Local Open Scope nat_scope.

Set Implicit Arguments.

(** ** Python strings and slices *)

Module Str.

Fixpoint drop (n : nat) (s : string) : string :=
  match n, s with
  | O, _ => s
  | S _, EmptyString => EmptyString
  | S n', String _ s' => drop n' s'
  end.

Fixpoint take (n : nat) (s : string) : string :=
  match n, s with
  | O, _ => EmptyString
  | S _, EmptyString => EmptyString
  | S n', String c s' => String c (take n' s')
  end.

(** [text[a:b]] for indices [0 <= a], [0 <= b]; Python clamps both to
    the length and gives [''] when [b <= a]. *)
Definition slice (a b : nat) (s : string) : string := take (b - a) (drop a s).

(** [''.join(l)] *)
Definition join (l : list string) : string := fold_right append EmptyString l.

(** [bool(s)]: a string is truthy when it is not empty. *)
Definition nonempty (s : string) : bool :=
  match s with EmptyString => false | String _ _ => true end.

End Str.

(** ** Exceptions *)

(** The exceptions of class [Exception], which [except Exception]
    catches.  A [BaseException] that is not one (the cancellation of the
    task, [asyncio.CancelledError]) is not among them: runs that are
    cancelled are not described here. *)
Inductive exn : Type :=
| ReError                 (* compiling the pattern failed: re.error, or
                             what else the compiler raises *)
| IndexError
| AttributeError
| JSONDecodeError
| OtherError (name : string).   (* an Exception raised by a collaborator *)

Inductive outcome (A : Type) : Type :=
| Ret (a : A)
| Raise (e : exn).
Arguments Ret {A} a.
Arguments Raise {A} e.

Definition bind {A B : Type} (m : outcome A) (f : A -> outcome B) : outcome B :=
  match m with
  | Ret a => f a
  | Raise e => Raise e
  end.

Notation "x <- m ;; k" := (bind m (fun x => k))
  (at level 61, m at next level, right associativity).
Notation "' p <- m ;; k" := (bind m (fun x => let 'p := x in k))
  (at level 61, p pattern, m at next level, right associativity).

(** ** What the plugin uses of [re] *)

(** One element of the list [re.split] returns: a string, or [None] for
    a group that took no part in the match. *)
Definition part : Type := option string.

(** [bool(p)] for an element of [parts]. *)
Definition truthy (p : part) : bool :=
  match p with
  | Some s => Str.nonempty s
  | None => false
  end.

(** [p or ""] *)
Definition part_text (p : part) : string :=
  match p with
  | Some s => s
  | None => ""
  end.

(** A match found while scanning a text: its span and the text of the
    pattern's capturing groups. *)
Record rmatch : Type := MkMatch {
  m_start : nat;
  m_end : nat;
  m_groups : list part
}.

(** [re] is Python's library, and the engine behind it is a parameter
    of the plugin.  What the plugin relies on: a pattern compiles
    ([re.compile]; [None] when it raises, [re.error] for a malformed
    pattern, and called [ReError] below whatever it is); and
    [Pattern.split]
    and [Pattern.sub] walk through the same leftmost non-overlapping
    matches of the pattern in the text, empty ones included (Python 3.7
    and later), in the order they are found. *)
Class ReEngine : Type := {
  pattern : Type;
  re_compile : string -> option pattern;
  sre_matches : pattern -> string -> list rmatch
}.

Module Re.

(** [Pattern.split]: the text before each match, then the groups of
    the match, and at the end the text after the last match. *)
Fixpoint split_from (text : string) (last : nat) (ms : list rmatch) : list part :=
  match ms with
  | [] => [Some (Str.slice last (String.length text) text)]
  | m :: ms' =>
      Some (Str.slice last (m_start m) text)
        :: m_groups m ++ split_from text (m_end m) ms'
  end.

Definition pattern_split `{ReEngine} (r : pattern) (text : string) : list part :=
  split_from text 0 (sre_matches r text).

(** [Pattern.sub] with the replacement [""]: the text between the
    matches. *)
Fixpoint sub_from (text : string) (i : nat) (ms : list rmatch) : string :=
  match ms with
  | [] => Str.slice i (String.length text) text
  | m :: ms' => (Str.slice i (m_start m) text ++ sub_from text (m_end m) ms')%string
  end.

Definition pattern_sub_empty `{ReEngine} (r : pattern) (text : string) : string :=
  sub_from text 0 (sre_matches r text).

(** [re.split(pattern, text)] *)
Definition re_split `{ReEngine} (pat text : string) : outcome (list part) :=
  match re_compile pat with
  | Some r => Ret (pattern_split r text)
  | None => Raise ReError
  end.

(** [re.sub(pattern, "", text)] *)
Definition re_sub `{ReEngine} (pat text : string) : outcome string :=
  match re_compile pat with
  | Some r => Ret (pattern_sub_empty r text)
  | None => Raise ReError
  end.

End Re.

(** ** Message components *)

(** [payload] is what a component that is not a [Plain] carries (an
    image, a mention, ...). *)
Inductive component (payload : Type) : Type :=
| Plain (text : string)
| Opaque (p : payload).
Arguments Plain {payload} text.
Arguments Opaque {payload} p.

Definition chain (payload : Type) : Type := list (component payload).

(** [bool(l)] for a list. *)
Definition nonnil {A : Type} (l : list A) : bool :=
  match l with [] => false | _ :: _ => true end.

(** [parts[i]] *)
Definition index {A : Type} (l : list A) (i : nat) : outcome A :=
  match nth_error l i with
  | Some a => Ret a
  | None => Raise IndexError
  end.

(** [parts[-1]] *)
Definition index_last {A : Type} (l : list A) : outcome A :=
  match l with
  | [] => Raise IndexError
  | a :: l' => Ret (last l' a)
  end.

(** [parts[1:-1]] *)
Definition mid_parts {A : Type} (l : list A) : list A := removelast (tl l).

(** ** [split_chain] *)

Section Segmenter.

Context {E : ReEngine} {P : Type}.

(** [if p: buffer.append(Plain(p))] *)
Definition append_plain (buffer : chain P) (p : part) : chain P :=
  match p with
  | Some s => if Str.nonempty s then buffer ++ [Plain s] else buffer
  | None => buffer
  end.

(** The body of the [for mid_part in parts[1:-1]] loop. *)
Definition push_mid (segments : list (chain P)) (mid_part : part) : list (chain P) :=
  match mid_part with
  | Some s => if Str.nonempty s then segments ++ [[Plain s]] else segments
  | None => segments
  end.

(** The body of the [for component in chain] loop, on the pair
    [(segments, current_buffer)]. *)
Definition split_step (pat : string) (st : list (chain P) * chain P) (c : component P)
  : outcome (list (chain P) * chain P) :=
  let '(segments, current_buffer) := st in
  match c with
  | Plain text =>
      parts <- Re.re_split pat text ;;
      if Nat.eqb (List.length parts) 1 then
        Ret (segments, current_buffer ++ [c])
      else
        p0 <- index parts 0 ;;
        let current_buffer := append_plain current_buffer p0 in
        let '(segments, current_buffer) :=
          if nonnil current_buffer
          then (segments ++ [current_buffer], [])
          else (segments, current_buffer) in
        let segments := fold_left push_mid (mid_parts parts) segments in
        pl <- index_last parts ;;
        let current_buffer := append_plain current_buffer pl in
        Ret (segments, current_buffer)
  | Opaque _ => Ret (segments, current_buffer ++ [c])
  end.

Fixpoint split_loop (pat : string) (l : chain P) (st : list (chain P) * chain P)
  : outcome (list (chain P) * chain P) :=
  match l with
  | [] => Ret st
  | c :: l' => st' <- split_step pat st c ;; split_loop pat l' st'
  end.

(** [split_chain(self, chain, pattern)] *)
Definition split_chain (l : chain P) (pat : string) : outcome (list (chain P)) :=
  '(segments, current_buffer) <- split_loop pat l ([], []) ;;
  Ret (if nonnil current_buffer
       then segments ++ [current_buffer]
       else segments).

(** ** The cleaner: step 2 of [on_decorating_result] *)

(** The body of the [for component in result.chain] loop, on the pair
    [(full_text_for_history, cleaned_chain)]. *)
Definition clean_step (clean_pattern : string) (acc : string * chain P) (c : component P)
  : outcome (string * chain P) :=
  let '(full_text_for_history, cleaned_chain) := acc in
  match c with
  | Plain text =>
      let full_text_for_history := (full_text_for_history ++ text)%string in
      text <- (if Str.nonempty clean_pattern
               then Re.re_sub clean_pattern text
               else Ret text) ;;
      Ret (full_text_for_history,
           if Str.nonempty text then cleaned_chain ++ [Plain text] else cleaned_chain)
  | Opaque _ => Ret (full_text_for_history, cleaned_chain ++ [c])
  end.

Fixpoint clean_loop (clean_pattern : string) (l : chain P) (acc : string * chain P)
  : outcome (string * chain P) :=
  match l with
  | [] => Ret acc
  | c :: l' => acc' <- clean_step clean_pattern acc c ;; clean_loop clean_pattern l' acc'
  end.

Definition clean_chain (clean_pattern : string) (l : chain P) : outcome (string * chain P) :=
  clean_loop clean_pattern l ("", []).

End Segmenter.

(** ** The host: transport, conversation store, [json], logger *)

(** What [json.loads] returns. *)
#[warnings="-register-all"]
Inductive json : Type :=
| JNull
| JBool (b : bool)
| JNum (q : Q)
| JStr (s : string)
| JArr (items : list json)
| JObj (fields : list (string * json)).

(** The conversation object of the store; the plugin reads its
    [history], a serialized list or nothing. *)
Record conversation : Type := MkConversation {
  history : option string
}.

Inductive level : Type := INFO | WARNING | ERROR.

Inductive log_msg : Type :=
| MsgProcessed (segments : nat) (is_cleaned : bool)
| MsgSendFailed (e : exn)
| MsgHistoryFailed (e : exn).

(** The calls the plugin makes to its collaborators, in the order it
    makes them. *)
Inductive call (P : Type) : Type :=
| Log (lvl : level) (msg : log_msg)
| GetCurrConversationId (umo : string)
| GetConversation (umo cid : string)
| UpdateConversation (umo cid : string) (history_list : json)
| SendMessage (umo : string) (mc : chain P)
| Sleep (delay : Q).
Arguments Log {P} lvl msg.
Arguments GetCurrConversationId {P} umo.
Arguments GetConversation {P} umo cid.
Arguments UpdateConversation {P} umo cid history_list.
Arguments SendMessage {P} umo mc.
Arguments Sleep {P} delay.

(** The collaborators answer from a state of their own, [world]; each
    call may raise. *)
Class Host (P : Type) : Type := {
  world : Type;
  get_curr_conversation_id : string -> world -> outcome (option string) * world;
  get_conversation : string -> string -> world -> outcome (option conversation) * world;
  update_conversation : string -> string -> json -> world -> outcome unit * world;
  send_message : string -> chain P -> world -> outcome unit * world;
  sleep : Q -> world -> world;
  json_loads : string -> outcome json
}.

(** [self.config] *)
Record config : Type := MkConfig {
  split_regex : option string;
  clean_regex : option string;
  delay : option Q
}.

(** [config.get(key, default)] *)
Definition config_get {A : Type} (v : option A) (default : A) : A :=
  match v with
  | Some a => a
  | None => default
  end.

(** Step 1 of [on_decorating_result]: the configuration. *)
Definition get_split_pattern (cfg : config) : string :=
  config_get (split_regex cfg) "\n\s*\n".

Definition get_clean_pattern (cfg : config) : string :=
  config_get (clean_regex cfg) "".

Definition get_delay (cfg : config) : Q :=
  config_get (delay cfg) 1%Q.

(** The event: [get_result()] with its chain, the origin, and whether
    [stop_event()] was called. *)
Record event (P : Type) : Type := MkEvent {
  result_chain : option (chain P);
  unified_msg_origin : string;
  stopped : bool
}.

Section Plugin.

Context {E : ReEngine} {P : Type} {H : Host P}.

(** The plugin's computations: they act on the world, record their
    calls and may raise; what was done before a raise stays done. *)
Definition state : Type := (world * list (call P))%type.

Definition M (A : Type) : Type := state -> outcome A * state.

Definition ret {A : Type} (a : A) : M A := fun s => (Ret a, s).

Definition mbind {A B : Type} (m : M A) (f : A -> M B) : M B :=
  fun s =>
    match m s with
    | (Ret a, s') => f a s'
    | (Raise e, s') => (Raise e, s')
    end.

(** [try: m  except Exception as e: handler(e)] *)
Definition try_except {A : Type} (m : M A) (handler : exn -> M A) : M A :=
  fun s =>
    match m s with
    | (Ret a, s') => (Ret a, s')
    | (Raise e, s') => handler e s'
    end.

Definition lift {A : Type} (o : outcome A) : M A := fun s => (o, s).

Definition record_call (c : call P) : M unit :=
  fun s => (Ret tt, (fst s, snd s ++ [c])).

(** A call to a collaborator: recorded, then answered by the host. *)
Definition ask {A : Type} (c : call P) (f : world -> outcome A * world) : M A :=
  fun s => let '(o, w) := f (fst s) in (o, (w, snd s ++ [c])).

End Plugin.

Notation "x <~ m ;; k" := (mbind m (fun x => k))
  (at level 61, m at next level, right associativity).
Notation "' p <~ m ;; k" := (mbind m (fun x => let 'p := x in k))
  (at level 61, p pattern, m at next level, right associativity).
Notation "m >> k" := (mbind m (fun _ => k))
  (at level 61, right associativity).

Section Handlers.

Context {E : ReEngine} {P : Type} {H : Host P}.

Definition logger (lvl : level) (msg : log_msg) : M unit :=
  record_call (Log lvl msg).

(** The record [save_history] appends. *)
Definition assistant_record (content : string) : json :=
  JObj [("role", JStr "assistant"); ("content", JStr content)].

(** [history_list.append(record)]: only a list has [append]. *)
Definition list_append (history_list : json) (record : json) : outcome json :=
  match history_list with
  | JArr items => Ret (JArr (items ++ [record]))
  | _ => Raise AttributeError
  end.

(** [json.loads(conversation.history)] under
    [except json.JSONDecodeError: history_list = []]. *)
Definition parse_history (h : string) : outcome json :=
  match json_loads h with
  | Raise JSONDecodeError => Ret (JArr [])
  | o => o
  end.

(** [bool(s)] for a string that may be [None]. *)
Definition truthy_str (s : option string) : bool :=
  match s with
  | Some s => Str.nonempty s
  | None => false
  end.

(** [history_list = []], replaced by the parsed history when there is
    one. *)
Definition load_history (conv : conversation) : outcome json :=
  match history conv with
  | Some h => if Str.nonempty h then parse_history h else Ret (JArr [])
  | None => Ret (JArr [])
  end.

(** [save_history(self, event, content)] *)
Definition save_history (ev : event P) (content : string) : M unit :=
  let umo := unified_msg_origin ev in
  try_except
    (cid <~ ask (GetCurrConversationId umo) (get_curr_conversation_id umo) ;;
     match cid with
     | None => ret tt
     | Some cid =>
         if negb (Str.nonempty cid) then ret tt else
         conv <~ ask (GetConversation umo cid) (get_conversation umo cid) ;;
         match conv with
         | None => ret tt
         | Some conv =>
             history_list <~ lift (load_history conv) ;;
             history_list <~ lift (list_append history_list (assistant_record content)) ;;
             ask (UpdateConversation umo cid history_list)
                 (update_conversation umo cid history_list)
         end
     end)
    (fun e => logger ERROR (MsgHistoryFailed e)).

(** Step 5, [for i, segment_chain in enumerate(segments)], from index
    [i] on; [n] is [len(segments)]. *)
Fixpoint send_segments (umo : string) (delay : Q) (n i : nat) (l : list (chain P))
  : M unit :=
  match l with
  | [] => ret tt
  | segment_chain :: l' =>
      (if negb (nonnil segment_chain) then ret tt else
       try_except
         (ask (SendMessage umo segment_chain) (send_message umo segment_chain) >>
          if Nat.ltb i (n - 1)
          then ask (Sleep delay) (fun w => (Ret tt, sleep delay w))
          else ret tt)
         (fun e => logger ERROR (MsgSendFailed e))) >>
      send_segments umo delay n (S i) l'
  end.

(** [on_decorating_result(self, event)]; the result is the event as the
    handler leaves it. *)
Definition on_decorating_result (cfg : config) (ev : event P) : M (event P) :=
  match result_chain ev with
  | None => ret ev
  | Some result_chain =>
      if negb (nonnil result_chain) then ret ev else
      let split_pattern := get_split_pattern cfg in
      let clean_pattern := get_clean_pattern cfg in
      let delay := get_delay cfg in
      '(full_text_for_history, cleaned_chain) <~
        lift (clean_chain clean_pattern result_chain) ;;
      segments <~ lift (split_chain cleaned_chain split_pattern) ;;
      let is_cleaned := negb (String.eqb clean_pattern "") in
      if Nat.leb (List.length segments) 1 && negb is_cleaned then ret ev else
      logger INFO (MsgProcessed (List.length segments) is_cleaned) >>
      save_history ev full_text_for_history >>
      send_segments (unified_msg_origin ev) delay (List.length segments) 0 segments >>
      ret (MkEvent (Some []) (unified_msg_origin ev) true)
  end.

End Handlers.

(** ** An executable engine for a fragment of Python's patterns

    Literal characters, [.], the escapes [\n \t \r \s \d] and escaped
    punctuation, groups [( )], alternation [|] and the greedy [* + ?].
    The matcher backtracks as [sre] does: alternatives left to right,
    repetition greedy, an iteration of [*] that consumes nothing is not
    taken.  [compile] answers [None] for a pattern Python rejects and for
    one outside the fragment. *)

Module MiniRe.

Inductive regex : Type :=
| REmpty
| RChar (a : ascii)
| RAny
| RSpace
| RDigit
| RSeq (a b : regex)
| RAlt (a b : regex)
| RStar (a : regex)
| RGroup (n : nat) (a : regex).

(** [\s] on code points below 256. *)
Definition is_space (c : ascii) : bool :=
  let n := nat_of_ascii c in
  ((9 <=? n) && (n <=? 13)) || ((28 <=? n) && (n <=? 32))
  || (n =? 133) || (n =? 160).

(** [\d] on code points below 256. *)
Definition is_digit (c : ascii) : bool :=
  let n := nat_of_ascii c in (48 <=? n) && (n <=? 57).

Definition newline : ascii := ascii_of_nat 10.

Definition is_quantifier (s : list ascii) : bool :=
  match s with
  | c :: _ => Ascii.eqb c "*" || Ascii.eqb c "+" || Ascii.eqb c "?"
  | [] => false
  end.

Definition is_special (c : ascii) : bool :=
  existsb (Ascii.eqb c) (list_ascii_of_string "*+?[]{}^$)|").

Definition parse_escape (c : ascii) : option regex :=
  if Ascii.eqb c "n" then Some (RChar newline)
  else if Ascii.eqb c "t" then Some (RChar (ascii_of_nat 9))
  else if Ascii.eqb c "r" then Some (RChar (ascii_of_nat 13))
  else if Ascii.eqb c "s" then Some RSpace
  else if Ascii.eqb c "d" then Some RDigit
  else if existsb (Ascii.eqb c) (list_ascii_of_string "\.*+?()[]{}|^$") then Some (RChar c)
  else None.

Definition parse_quantifier (a : regex) (s : list ascii) : option (regex * list ascii) :=
  match s with
  | c :: s' =>
      if is_quantifier s then
        if is_quantifier s' then None
        else if Ascii.eqb c "*" then Some (RStar a, s')
        else if Ascii.eqb c "+" then Some (RSeq a (RStar a), s')
        else Some (RAlt a REmpty, s')
      else Some (a, s)
  | [] => Some (a, s)
  end.

(** Recursive descent; [n] counts the groups opened so far. *)
Fixpoint parse_alt (fuel : nat) (s : list ascii) (n : nat)
  : option (regex * list ascii * nat) :=
  match fuel with
  | O => None
  | S f =>
      match parse_seq f s n with
      | Some (a, c :: s', n') =>
          if Ascii.eqb c "|" then
            match parse_alt f s' n' with
            | Some (b, s'', n'') => Some (RAlt a b, s'', n'')
            | None => None
            end
          else Some (a, c :: s', n')
      | other => other
      end
  end
with parse_seq (fuel : nat) (s : list ascii) (n : nat)
  : option (regex * list ascii * nat) :=
  match fuel with
  | O => None
  | S f =>
      match s with
      | [] => Some (REmpty, s, n)
      | c :: _ =>
          if Ascii.eqb c "|" || Ascii.eqb c ")" then Some (REmpty, s, n)
          else
            match parse_atom f s n with
            | Some (a, s', n') =>
                match parse_quantifier a s' with
                | Some (a', s'') =>
                    match parse_seq f s'' n' with
                    | Some (b, s3, n3) => Some (RSeq a' b, s3, n3)
                    | None => None
                    end
                | None => None
                end
            | None => None
            end
      end
  end
with parse_atom (fuel : nat) (s : list ascii) (n : nat)
  : option (regex * list ascii * nat) :=
  match fuel with
  | O => None
  | S f =>
      match s with
      | [] => None
      | c :: s' =>
          if Ascii.eqb c "(" then
            if is_quantifier s' then None
            else
              match parse_alt f s' (S n) with
              | Some (a, c' :: s'', n') =>
                  if Ascii.eqb c' ")" then Some (RGroup n a, s'', n') else None
              | _ => None
              end
          else if Ascii.eqb c "\" then
            match s' with
            | e :: s'' =>
                match parse_escape e with
                | Some a => Some (a, s'', n)
                | None => None
                end
            | [] => None
            end
          else if Ascii.eqb c "." then Some (RAny, s', n)
          else if is_special c then None
          else Some (RChar c, s', n)
      end
  end.

(** A compiled pattern: the expression and its number of groups. *)
Definition compile (pat : string) : option (regex * nat) :=
  let s := list_ascii_of_string pat in
  match parse_alt (4 * List.length s + 4) s 0 with
  | Some (r, [], n) => Some (r, n)
  | _ => None
  end.

Definition caps : Type := list (option (nat * nat)).

Fixpoint set_cap (n : nat) (v : nat * nat) (c : caps) : caps :=
  match c, n with
  | [], _ => []
  | _ :: c', O => Some v :: c'
  | x :: c', S n' => x :: set_cap n' v c'
  end.

Definition one_char (p : ascii -> bool) (s : list ascii) (i : nat) (c : caps)
  (k : list ascii -> nat -> caps -> option (nat * caps)) : option (nat * caps) :=
  match s with
  | x :: s' => if p x then k s' (S i) c else None
  | [] => None
  end.

(** [r*] at position [i], where [step] matches [r]: as many
    iterations as possible, each consuming something, then [k]. *)
Fixpoint star
  (step : list ascii -> nat -> caps ->
          (list ascii -> nat -> caps -> option (nat * caps)) -> option (nat * caps))
  (fuel : nat) (s : list ascii) (i : nat) (c : caps)
  (k : list ascii -> nat -> caps -> option (nat * caps)) {struct fuel}
  : option (nat * caps) :=
  match fuel with
  | O => k s i c
  | S f =>
      match step s i c
              (fun s' i' c' => if i' =? i then None else star step f s' i' c' k) with
      | Some res => Some res
      | None => k s i c
      end
  end.

(** [match_at r s i c k]: match [r] at position [i], where [s] is the
    text from [i] on, then go on with [k]; the first success wins. *)
Fixpoint match_at (r : regex) (s : list ascii) (i : nat) (c : caps)
  (k : list ascii -> nat -> caps -> option (nat * caps)) {struct r}
  : option (nat * caps) :=
  match r with
  | REmpty => k s i c
  | RChar a => one_char (Ascii.eqb a) s i c k
  | RAny => one_char (fun x => negb (Ascii.eqb x newline)) s i c k
  | RSpace => one_char is_space s i c k
  | RDigit => one_char is_digit s i c k
  | RSeq a b => match_at a s i c (fun s' i' c' => match_at b s' i' c' k)
  | RAlt a b =>
      match match_at a s i c k with
      | Some res => Some res
      | None => match_at b s i c k
      end
  | RStar a => star (match_at a) (S (List.length s)) s i c k
  | RGroup n a => match_at a s i c (fun s' i' c' => k s' i' (set_cap n (i, i') c'))
  end.

(** The search of one match from position [p] on; with [adv] an empty
    match at [p] itself is refused. *)
Fixpoint search (r : regex) (ngroups : nat) (s : list ascii) (p : nat) (adv : bool)
  {struct s} : option (nat * nat * caps) :=
  match match_at r s p (repeat None ngroups)
          (fun _ j c => if adv && (j =? p) then None else Some (j, c)) with
  | Some (j, c) => Some (p, j, c)
  | None =>
      match s with
      | [] => None
      | _ :: s' => search r ngroups s' (S p) false
      end
  end.

(** The scan [split] and [sub] share: search, go on from the end of the
    match, and after an empty match refuse an empty match there. *)
Fixpoint scan (fuel : nat) (r : regex) (ngroups : nat) (text : list ascii)
  (pos : nat) (adv : bool) : list (nat * nat * caps) :=
  match fuel with
  | O => []
  | S f =>
      match search r ngroups (skipn pos text) pos adv with
      | Some (b, e, c) => (b, e, c) :: scan f r ngroups text e (e =? b)
      | None => []
      end
  end.

Definition group_text (text : string) (cap : option (nat * nat)) : part :=
  match cap with
  | Some (b, e) => Some (Str.slice b e text)
  | None => None
  end.

Definition matches (r : regex * nat) (text : string) : list rmatch :=
  let s := list_ascii_of_string text in
  map (fun m : nat * nat * caps =>
         let '(b, e, c) := m in MkMatch b e (map (group_text text) c))
      (scan (2 * List.length s + 2) (fst r) (snd r) s 0 false).

#[export] Instance engine : ReEngine := {
  pattern := regex * nat;
  re_compile := compile;
  sre_matches := matches
}.

End MiniRe.

(** ** The specification's vocabulary *)

Module Spec.

Section Content.

Context {P : Type}.

(** The text of a sequence: its TextItems' texts, concatenated. *)
Fixpoint chain_text (l : chain P) : string :=
  match l with
  | [] => ""
  | Plain t :: l' => (t ++ chain_text l')%string
  | Opaque _ :: l' => chain_text l'
  end.

(** The OpaqueItems of a sequence, in order. *)
Fixpoint opaques (l : chain P) : list P :=
  match l with
  | [] => []
  | Plain _ :: l' => opaques l'
  | Opaque p :: l' => p :: opaques l'
  end.

Definition is_text (c : component P) : bool :=
  match c with Plain _ => true | Opaque _ => false end.

(** No TextItem with the empty string as its text. *)
Definition text_nonempty (c : component P) : bool :=
  match c with Plain t => Str.nonempty t | Opaque _ => true end.

(** A part as the items it contributes: one TextItem, or nothing when
    the part is empty. *)
Definition text_items (p : part) : chain P :=
  if truthy p then [Plain (part_text p)] else [].

(** A unit as the units it contributes: itself, or nothing when it is
    empty. *)
Definition close_unit (u : chain P) : list (chain P) :=
  match u with [] => [] | _ :: _ => [u] end.

(** Section 4.2, one item: [(result, current)] before and after. *)
Inductive accumulate (parts_of : string -> list part)
  : list (chain P) * chain P -> component P -> list (chain P) * chain P -> Prop :=
| acc_opaque : forall res cur p,
    accumulate parts_of (res, cur) (Opaque p) (res, cur ++ [Opaque p])
| acc_one_part : forall res cur t p,
    parts_of t = [p] ->
    accumulate parts_of (res, cur) (Plain t) (res, cur ++ [Plain t])
| acc_split : forall res cur t first interior final,
    parts_of t = first :: interior ++ [final] ->
    accumulate parts_of (res, cur) (Plain t)
      (res ++ close_unit (cur ++ text_items first)
           ++ flat_map (fun p => close_unit (text_items p)) interior,
       text_items final).

Inductive accumulate_all (parts_of : string -> list part)
  : list (chain P) * chain P -> chain P -> list (chain P) * chain P -> Prop :=
| acc_done : forall st, accumulate_all parts_of st [] st
| acc_next : forall st c st' l st'',
    accumulate parts_of st c st' ->
    accumulate_all parts_of st' l st'' ->
    accumulate_all parts_of st (c :: l) st''.

(** Section 4.2: the units of a sequence. *)
Definition segmenter (parts_of : string -> list part) (l : chain P)
  (units : list (chain P)) : Prop :=
  exists res cur,
    accumulate_all parts_of ([], []) l (res, cur) /\ units = res ++ close_unit cur.

(** The SendMessage calls of a trace. *)
Fixpoint sends (tr : list (call P)) : list (string * chain P) :=
  match tr with
  | [] => []
  | SendMessage umo mc :: tr' => (umo, mc) :: sends tr'
  | _ :: tr' => sends tr'
  end.

(** The history lists a trace writes to the store. *)
Fixpoint updates (tr : list (call P)) : list json :=
  match tr with
  | [] => []
  | UpdateConversation _ _ h :: tr' => h :: updates tr'
  | _ :: tr' => updates tr'
  end.

(** What a trace logs at a level. *)
Fixpoint logs (lvl : level) (tr : list (call P)) : list log_msg :=
  match tr with
  | [] => []
  | Log lvl' msg :: tr' =>
      match lvl, lvl' with
      | INFO, INFO | WARNING, WARNING | ERROR, ERROR => msg :: logs lvl tr'
      | _, _ => logs lvl tr'
      end
  | _ :: tr' => logs lvl tr'
  end.

End Content.

(** A position is covered when it lies inside a match. *)
Definition covered (ms : list rmatch) (i : nat) : bool :=
  existsb (fun m => (m_start m <=? i) && (i <? m_end m)) ms.

(** The text [s], which starts at position [i], without the covered
    positions. *)
Fixpoint erase (ms : list rmatch) (i : nat) (s : string) : string :=
  match s with
  | EmptyString => EmptyString
  | String c s' =>
      if covered ms i then erase ms (S i) s' else String c (erase ms (S i) s')
  end.

(** A text with the matched separators removed. *)
Definition without_matches `{ReEngine} (r : pattern) (text : string) : string :=
  erase (sre_matches r text) 0 text.

(** The matches of a scan from [pos] in a text of length [len]: each
    inside the text, none before the end of the one before. *)
Fixpoint spans_ok (pos len : nat) (ms : list rmatch) : bool :=
  match ms with
  | [] => true
  | m :: ms' =>
      (pos <=? m_start m) && (m_start m <=? m_end m) && (m_end m <=? len)
      && spans_ok (m_end m) len ms'
  end.

Section Patterns.

Context {E : ReEngine} {P : Type}.

(** The engine scans the TextItems of [l] in order. *)
Definition scans_ok (r : pattern) (l : chain P) : Prop :=
  forall t, In (Plain t) l ->
    spans_ok 0 (String.length t) (sre_matches r t) = true.

(** No match on the TextItems of [l] reports a group: the pattern has
    no capturing parentheses. *)
Definition group_free (r : pattern) (l : chain P) : Prop :=
  forall t m, In (Plain t) l -> In m (sre_matches r t) -> m_groups m = [].

(** Section 4.2, the parts of a text: the text before the first match,
    the texts between the matches and the text after the last match;
    the matches themselves are discarded. *)
Fixpoint parts_from (text : string) (pos : nat) (ms : list rmatch) : list part :=
  match ms with
  | [] => [Some (Str.drop pos text)]
  | m :: ms' =>
      Some (Str.slice pos (m_start m) text) :: parts_from text (m_end m) ms'
  end.

Definition parts_between (r : pattern) (text : string) : list part :=
  parts_from text 0 (sre_matches r text).

(** What an item contributes to the units: itself, or the non-empty
    parts of its text when the pattern matches in it. *)
Definition pieces (r : pattern) (c : component P) : chain P :=
  match c with
  | Plain t =>
      match sre_matches r t with
      | [] => [c]
      | _ :: _ => flat_map text_items (Re.pattern_split r t)
      end
  | Opaque _ => [c]
  end.

(** The text of a sequence with the matched separators removed. *)
Fixpoint text_without_separators (r : pattern) (l : chain P) : string :=
  match l with
  | [] => ""
  | Plain t :: l' => (without_matches r t ++ text_without_separators r l')%string
  | Opaque _ :: l' => text_without_separators r l'
  end.

(** Section 4.1 with a pattern: every match removed from every
    TextItem, the TextItems left empty omitted. *)
Definition cleaned (r : pattern) (l : chain P) : chain P :=
  flat_map (fun c =>
              match c with
              | Plain t => text_items (Some (without_matches r t))
              | Opaque _ => [c]
              end) l.

End Patterns.

Section Delivery.

Context {P : Type} {H : Host P}.

(** Section 4.5 as the code has it: the calls of the delivery of the
    units [l], from the world [w] to the world [w']. *)
Inductive delivery (umo : string) (delay : Q)
  : list (chain P) -> world -> list (call P) -> world -> Prop :=
| dl_done : forall w, delivery umo delay [] w [] w
| dl_empty : forall l w tr w',
    delivery umo delay l w tr w' ->
    delivery umo delay ([] :: l) w tr w'
| dl_last : forall u w w1,
    u <> [] ->
    send_message umo u w = (Ret tt, w1) ->
    delivery umo delay [u] w [SendMessage umo u] w1
| dl_sent : forall u l w w1 tr w',
    u <> [] -> l <> [] ->
    send_message umo u w = (Ret tt, w1) ->
    delivery umo delay l (sleep delay w1) tr w' ->
    delivery umo delay (u :: l) w (SendMessage umo u :: Sleep delay :: tr) w'
| dl_failed : forall u l w e w1 tr w',
    u <> [] ->
    send_message umo u w = (Raise e, w1) ->
    delivery umo delay l w1 tr w' ->
    delivery umo delay (u :: l) w
      (SendMessage umo u :: Log ERROR (MsgSendFailed e) :: tr) w'.

(** Section 4.4 as the code has it: the calls of the capture of
    [content], from the world [w] to the world [w'].  A capture that is
    skipped for want of a conversation logs nothing; one that fails logs
    an error. *)
Inductive capture (umo content : string)
  : world -> list (call P) -> world -> Prop :=
| cap_no_id : forall w cid w1,
    get_curr_conversation_id umo w = (Ret cid, w1) ->
    truthy_str cid = false ->
    capture umo content w [GetCurrConversationId umo] w1
| cap_no_conversation : forall w cid w1 w2,
    get_curr_conversation_id umo w = (Ret (Some cid), w1) ->
    Str.nonempty cid = true ->
    get_conversation umo cid w1 = (Ret None, w2) ->
    capture umo content w
      [GetCurrConversationId umo; GetConversation umo cid] w2
| cap_appended : forall w cid w1 conv w2 items w3,
    get_curr_conversation_id umo w = (Ret (Some cid), w1) ->
    Str.nonempty cid = true ->
    get_conversation umo cid w1 = (Ret (Some conv), w2) ->
    load_history conv = Ret (JArr items) ->
    update_conversation umo cid (JArr (items ++ [assistant_record content])) w2
    = (Ret tt, w3) ->
    capture umo content w
      [GetCurrConversationId umo; GetConversation umo cid;
       UpdateConversation umo cid (JArr (items ++ [assistant_record content]))]
      w3
| cap_id_failed : forall w e w1,
    get_curr_conversation_id umo w = (Raise e, w1) ->
    capture umo content w
      [GetCurrConversationId umo; Log ERROR (MsgHistoryFailed e)] w1
| cap_conversation_failed : forall w cid w1 e w2,
    get_curr_conversation_id umo w = (Ret (Some cid), w1) ->
    Str.nonempty cid = true ->
    get_conversation umo cid w1 = (Raise e, w2) ->
    capture umo content w
      [GetCurrConversationId umo; GetConversation umo cid;
       Log ERROR (MsgHistoryFailed e)] w2
| cap_history_failed : forall w cid w1 conv w2 e,
    get_curr_conversation_id umo w = (Ret (Some cid), w1) ->
    Str.nonempty cid = true ->
    get_conversation umo cid w1 = (Ret (Some conv), w2) ->
    bind (load_history conv) (fun h => list_append h (assistant_record content))
    = Raise e ->
    capture umo content w
      [GetCurrConversationId umo; GetConversation umo cid;
       Log ERROR (MsgHistoryFailed e)] w2
| cap_update_failed : forall w cid w1 conv w2 items e w3,
    get_curr_conversation_id umo w = (Ret (Some cid), w1) ->
    Str.nonempty cid = true ->
    get_conversation umo cid w1 = (Ret (Some conv), w2) ->
    load_history conv = Ret (JArr items) ->
    update_conversation umo cid (JArr (items ++ [assistant_record content])) w2
    = (Raise e, w3) ->
    capture umo content w
      [GetCurrConversationId umo; GetConversation umo cid;
       UpdateConversation umo cid (JArr (items ++ [assistant_record content]));
       Log ERROR (MsgHistoryFailed e)] w3.

End Delivery.

End Spec.

(** ** Hosts to run the plugin on *)

Module Fixture.

(** A scripted host: fixed answers of the store, and a transport that
    fails on the calls whose number is listed. *)
Record script : Type := MkScript {
  cid_answer : outcome (option string);
  conversation_answer : outcome (option conversation);
  update_answer : outcome unit;
  failing_sends : list nat;
  sends_so_far : nat
}.

(** [json.loads] on the texts the scripts store. *)
Definition loads (s : string) : outcome json :=
  if String.eqb s "[]" then Ret (JArr [])
  else if String.eqb s "{}" then Ret (JObj [])
  else if String.eqb s "[1]" then Ret (JArr [JNum 1%Q])
  else if String.eqb s "{oops" then Raise JSONDecodeError
  else Raise (OtherError "not a text of the scripts").

#[export] Instance host : Host nat := {
  world := script;
  get_curr_conversation_id := fun _ w => (cid_answer w, w);
  get_conversation := fun _ _ w => (conversation_answer w, w);
  update_conversation := fun _ _ _ w => (update_answer w, w);
  send_message := fun _ _ w =>
    (if existsb (Nat.eqb (sends_so_far w)) (failing_sends w)
     then Raise (OtherError "transport")
     else Ret tt,
     MkScript (cid_answer w) (conversation_answer w) (update_answer w)
              (failing_sends w) (S (sends_so_far w)));
  sleep := fun _ w => w;
  json_loads := loads
}.

(** A store with one conversation, ["c1"], whose history is [h]. *)
Definition with_history (h : option string) (failing : list nat) : script :=
  MkScript (Ret (Some "c1")) (Ret (Some (MkConversation h))) (Ret tt) failing 0.

(** A store with no current conversation. *)
Definition no_conversation : script :=
  MkScript (Ret None) (Ret None) (Ret tt) [] 0.

(** A store that is down. *)
Definition store_down : script :=
  MkScript (Raise (OtherError "store")) (Raise (OtherError "store"))
           (Raise (OtherError "store")) [] 0.

Definition newline : string := String (ascii_of_nat 10) "".

Definition reply (l : chain nat) : event nat := MkEvent (Some l) "origin" false.

(** The plugin starts in a world, with no call made yet. *)
Definition start (w : script) : @state nat host := (w, []).

(** Text, an image, and a text with a blank line in it. *)
Definition mixed : chain nat :=
  [Plain "A"; Opaque 7; Plain ("B" ++ newline ++ newline ++ "C")%string].

(** The default [split_regex], and what it compiles to. *)
Definition blank_lines : string := "\n\s*\n".

Definition blank_lines_re : @pattern MiniRe.engine :=
  (MiniRe.RSeq (MiniRe.RChar MiniRe.newline)
     (MiniRe.RSeq (MiniRe.RStar MiniRe.RSpace)
        (MiniRe.RSeq (MiniRe.RChar MiniRe.newline) MiniRe.REmpty)), 0).

(** A clean pattern: the digits. *)
Definition digits : string := "\d".

Definition digits_re : @pattern MiniRe.engine :=
  (MiniRe.RSeq MiniRe.RDigit MiniRe.REmpty, 0).

Definition strip_digits : config := MkConfig None (Some digits) None.

(** A split pattern with a capturing group. *)
Definition group_b : string := "(b)".

Definition group_b_re : @pattern MiniRe.engine :=
  (MiniRe.RSeq (MiniRe.RGroup 0 (MiniRe.RSeq (MiniRe.RChar "b") MiniRe.REmpty))
     MiniRe.REmpty, 1).

(** One text with a blank line in it. *)
Definition hello_world : chain nat :=
  [Plain ("Hello" ++ newline ++ newline ++ "World")%string].

Definition defaults : config := MkConfig None None None.

End Fixture.

(** ** Reading a trace of calls *)

Module Trace.

Section Calls.

Context {P : Type}.

(** The sequence has a [Plain] component. *)
Definition has_text (l : chain P) : bool := existsb Spec.is_text l.

(** The delays slept, in order. *)
Fixpoint sleeps (tr : list (call P)) : list Q :=
  match tr with
  | [] => []
  | Sleep d :: tr' => d :: sleeps tr'
  | _ :: tr' => sleeps tr'
  end.

Definition is_sleep (c : call P) : bool :=
  match c with Sleep _ => true | _ => false end.

(** A call to the transport or to [asyncio.sleep]. *)
Definition is_transport_call (c : call P) : bool :=
  match c with
  | SendMessage _ _ | Sleep _ => true
  | _ => false
  end.

(** A call to the conversation manager. *)
Definition is_store_call (c : call P) : bool :=
  match c with
  | GetCurrConversationId _ | GetConversation _ _ | UpdateConversation _ _ _ => true
  | _ => false
  end.

(** Send, sleep, send, ..., send: one send for each unit and one sleep
    between two of them. *)
Fixpoint paced (umo : string) (delay : Q) (units : list (chain P)) : list (call P) :=
  match units with
  | [] => []
  | u :: rest =>
      match rest with
      | [] => [SendMessage umo u]
      | _ :: _ => SendMessage umo u :: Sleep delay :: paced umo delay rest
      end
  end.

End Calls.

End Trace.

(** ** More replies and configurations *)

Module Cases.

(** A pattern that does not compile: [re.error], missing parenthesis. *)
Definition unclosed : string := "(".

Definition broken_patterns : config := MkConfig (Some unclosed) (Some unclosed) None.

Definition broken_clean : config := MkConfig None (Some unclosed) None.

(** A reply that is an image and nothing else. *)
Definition image_only : chain nat := [Opaque 7].

(** Two blank lines between two images. *)
Definition images_apart : chain nat :=
  [Opaque 1; Plain (Fixture.newline ++ Fixture.newline)%string; Opaque 2].

End Cases.

(** ** The runs of the handler *)

Module Run.

Section Cases.

Context {E : ReEngine} {P : Type} {H : Host P}.

(** What a run of the handler can be. *)
Inductive handler_case (cfg : config) (ev : event P) (s : state) : Prop :=
| case_untouched :
    on_decorating_result cfg ev s = (Ret ev, s) ->
    handler_case cfg ev s
| case_pattern_error :
    on_decorating_result cfg ev s = (Raise ReError, s) ->
    re_compile (get_clean_pattern cfg) = None
    \/ re_compile (get_split_pattern cfg) = None ->
    handler_case cfg ev s
| case_taken_over : forall l cleaned segments tr1 w1 tr2 w2,
    result_chain ev = Some l -> l <> [] ->
    clean_chain (get_clean_pattern cfg) l = Ret (Spec.chain_text l, cleaned) ->
    split_chain cleaned (get_split_pattern cfg) = Ret segments ->
    Forall (fun u => u <> []) segments ->
    Forall (Forall (fun c => Spec.text_nonempty c = true)) segments ->
    Spec.capture (unified_msg_origin ev) (Spec.chain_text l) (fst s) tr1 w1 ->
    Spec.delivery (unified_msg_origin ev) (get_delay cfg) segments w1 tr2 w2 ->
    on_decorating_result cfg ev s
    = (Ret (MkEvent (Some []) (unified_msg_origin ev) true),
       (w2, snd s
            ++ Log INFO (MsgProcessed (List.length segments)
                           (negb (String.eqb (get_clean_pattern cfg) "")))
            :: tr1 ++ tr2)) ->
    handler_case cfg ev s.

End Cases.

End Run.

(** * Proofs *)

Unset Implicit Arguments.

(** ** Strings *)

Module StrFacts.

Lemma take_all (s : string) (n : nat) :
  String.length s <= n -> Str.take n s = s.
Proof.
  revert n; induction s as [|c s IH]; intros [|n] Hn; simpl in *;
    try reflexivity; try lia.
  f_equal; apply IH; lia.
Qed.

Lemma drop_length (s : string) (n : nat) :
  String.length (Str.drop n s) = String.length s - n.
Proof.
  revert s; induction n as [|n IH]; intros [|c s]; simpl; auto with arith.
Qed.

Lemma slice_to_end (s : string) (i : nat) :
  Str.slice i (String.length s) s = Str.drop i s.
Proof.
  unfold Str.slice; apply take_all; rewrite drop_length; lia.
Qed.

Lemma slice_whole (s : string) : Str.slice 0 (String.length s) s = s.
Proof. rewrite slice_to_end; reflexivity. Qed.

Lemma append_nil_r (s : string) : (s ++ "")%string = s.
Proof. induction s; simpl; congruence. Qed.

Lemma append_assoc (a b c : string) :
  ((a ++ b) ++ c)%string = (a ++ b ++ c)%string.
Proof. induction a; simpl; congruence. Qed.

Lemma take_drop (s : string) (n : nat) :
  (Str.take n s ++ Str.drop n s)%string = s.
Proof.
  revert s; induction n as [|n IH]; intros [|c s]; simpl; try reflexivity.
  f_equal; apply IH.
Qed.

Lemma drop_drop (s : string) (n m : nat) :
  Str.drop m (Str.drop n s) = Str.drop (n + m) s.
Proof.
  revert s; induction n as [|n IH]; intros s; simpl; [reflexivity|].
  destruct s as [|c s]; simpl; [destruct m; reflexivity | apply IH].
Qed.

Lemma take_length (s : string) (n : nat) :
  n <= String.length s -> String.length (Str.take n s) = n.
Proof.
  revert s; induction n as [|n IH]; intros [|c s] Hn; simpl in *;
    try reflexivity; try lia.
  f_equal; apply IH; lia.
Qed.

Lemma nonempty_false (s : string) : Str.nonempty s = false -> s = "".
Proof. destruct s; simpl; [reflexivity | discriminate]. Qed.

Lemma nonempty_true (s : string) : Str.nonempty s = true <-> s <> "".
Proof. destruct s; simpl; split; congruence. Qed.

End StrFacts.

(** ** The exception monad and list helpers *)

Lemma close_unit_nonnil {P : Type} (u : chain P) :
  (if nonnil u then [u] else []) = Spec.close_unit u.
Proof. destruct u; reflexivity. Qed.

Lemma split_last {A : Type} (l : list A) (d : A) :
  l <> [] -> l = removelast l ++ [last l d].
Proof. intros Hl; apply app_removelast_last; exact Hl. Qed.

(** ** The parts of [re.split] *)

Module SplitFacts.

Lemma split_from_head (text : string) (pos : nat) (ms : list rmatch) :
  exists tl, Re.split_from text pos ms
             = Some (Str.slice pos (match ms with
                                    | [] => String.length text
                                    | m :: _ => m_start m
                                    end) text) :: tl
             /\ (tl = [] <-> ms = []).
Proof.
  destruct ms as [|m ms]; simpl.
  - exists []; split; [reflexivity | tauto].
  - eexists; split; [reflexivity|].
    split; [|discriminate].
    intros Htl; apply app_eq_nil in Htl; destruct Htl as [_ Htl].
    destruct ms; discriminate.
Qed.

Lemma split_from_one (text : string) (pos : nat) (ms : list rmatch) (p : part) :
  Re.split_from text pos ms = [p] -> ms = [].
Proof.
  destruct (split_from_head text pos ms) as (tl & Heq & Htl).
  rewrite Heq; intros Hp; injection Hp as _ Hnil; tauto.
Qed.

Lemma split_from_no_match (text : string) :
  Re.split_from text 0 [] = [Some text].
Proof. simpl; rewrite StrFacts.slice_whole; reflexivity. Qed.

(** Without groups the truthy parts, joined, are what [sub] leaves. *)
Lemma join_split_sub (text : string) (ms : list rmatch) (pos : nat) :
  (forall m, In m ms -> m_groups m = []) ->
  Str.join (map part_text (Re.split_from text pos ms))
  = Re.sub_from text pos ms.
Proof.
  revert pos; induction ms as [|m ms IH]; intros pos Hg; simpl.
  - apply StrFacts.append_nil_r.
  - rewrite (Hg m (or_introl eq_refl)); simpl.
    f_equal; apply IH; intros m' Hm'; apply Hg; right; exact Hm'.
Qed.

End SplitFacts.

(** ** Removing the matched spans *)

Module EraseFacts.

Lemma erase_ext (ms ms' : list rmatch) (s : string) (i : nat) :
  (forall j, i <= j -> Spec.covered ms j = Spec.covered ms' j) ->
  Spec.erase ms i s = Spec.erase ms' i s.
Proof.
  revert i; induction s as [|c s IH]; intros i Hc; simpl; [reflexivity|].
  rewrite (Hc i (le_n i)), (IH (S i)); [reflexivity|].
  intros j Hj; apply Hc; lia.
Qed.

Lemma erase_keep (ms : list rmatch) (s : string) (i : nat) :
  (forall j, i <= j < i + String.length s -> Spec.covered ms j = false) ->
  Spec.erase ms i s = s.
Proof.
  revert i; induction s as [|c s IH]; intros i Hc; simpl in *; [reflexivity|].
  rewrite Hc by lia; f_equal; apply IH; intros j Hj; apply Hc; lia.
Qed.

Lemma erase_all (ms : list rmatch) (s : string) (i : nat) :
  (forall j, i <= j < i + String.length s -> Spec.covered ms j = true) ->
  Spec.erase ms i s = "".
Proof.
  revert i; induction s as [|c s IH]; intros i Hc; simpl in *; [reflexivity|].
  rewrite Hc by lia; apply IH; intros j Hj; apply Hc; lia.
Qed.

Lemma erase_app (ms : list rmatch) (s1 s2 : string) (i : nat) :
  Spec.erase ms i (s1 ++ s2)
  = (Spec.erase ms i s1 ++ Spec.erase ms (i + String.length s1) s2)%string.
Proof.
  revert i; induction s1 as [|c s1 IH]; intros i; simpl.
  - rewrite Nat.add_0_r; reflexivity.
  - rewrite IH, <- plus_n_Sm; destruct (Spec.covered ms i); reflexivity.
Qed.

Lemma covered_before (ms : list rmatch) (pos len j : nat) :
  Spec.spans_ok pos len ms = true -> j < pos -> Spec.covered ms j = false.
Proof.
  revert pos; induction ms as [|m ms IH]; intros pos Hok Hj; simpl in *;
    [reflexivity|].
  repeat (apply andb_prop in Hok; destruct Hok as [Hok ?]).
  apply Nat.leb_le in Hok.
  match goal with H : (m_start m <=? m_end m) = true |- _ => apply Nat.leb_le in H end.
  apply orb_false_intro.
  - apply andb_false_intro1, Nat.leb_gt; lia.
  - apply (IH (m_end m)); [assumption | lia].
Qed.

(** On a well-formed scan, [sub] with the empty replacement leaves the
    text without the covered positions. *)
Lemma sub_from_erase (text : string) (ms : list rmatch) (pos : nat) :
  Spec.spans_ok pos (String.length text) ms = true ->
  Re.sub_from text pos ms = Spec.erase ms pos (Str.drop pos text).
Proof.
  revert pos; induction ms as [|m ms IH]; intros pos Hok; simpl Re.sub_from.
  - rewrite StrFacts.slice_to_end; symmetry; apply erase_keep.
    intros; reflexivity.
  - pose proof Hok as Hok'.
    simpl in Hok; repeat (apply andb_prop in Hok; destruct Hok as [Hok ?]).
    apply Nat.leb_le in Hok.
    repeat match goal with H : (_ <=? _) = true |- _ => apply Nat.leb_le in H end.
    set (b := m_start m) in *; set (e := m_end m) in *.
    rewrite IH by assumption.
    assert (Hsplit : Str.drop pos text
                     = (Str.slice pos b text
                        ++ Str.slice b e text ++ Str.drop e text)%string).
    { unfold Str.slice.
      rewrite <- (StrFacts.take_drop (Str.drop pos text) (b - pos)) at 1.
      f_equal. rewrite StrFacts.drop_drop.
      replace (pos + (b - pos)) with b by lia.
      rewrite <- (StrFacts.take_drop (Str.drop b text) (e - b)) at 1.
      f_equal. rewrite StrFacts.drop_drop. f_equal; lia. }
    assert (Hl1 : String.length (Str.slice pos b text) = b - pos).
    { unfold Str.slice; apply StrFacts.take_length.
      rewrite StrFacts.drop_length; lia. }
    assert (Hl2 : String.length (Str.slice b e text) = e - b).
    { unfold Str.slice; apply StrFacts.take_length.
      rewrite StrFacts.drop_length; lia. }
    rewrite Hsplit.
    rewrite !erase_app, Hl1, Hl2.
    replace (pos + (b - pos)) with b by lia.
    replace (b + (e - b)) with e by lia.
    rewrite (erase_keep (m :: ms) (Str.slice pos b text) pos).
    2:{ intros j Hj; rewrite Hl1 in Hj; simpl.
        apply orb_false_intro.
        - apply andb_false_intro1, Nat.leb_gt; fold b; lia.
        - apply (covered_before ms e (String.length text));
            [assumption | lia]. }
    rewrite (erase_all (m :: ms) (Str.slice b e text) b).
    2:{ intros j Hj; rewrite Hl2 in Hj; simpl.
        apply orb_true_intro; left; apply andb_true_intro; split;
          [apply Nat.leb_le | apply Nat.ltb_lt]; fold b e; lia. }
    simpl; f_equal.
    apply erase_ext; intros j Hj; simpl.
    replace (j <? m_end m) with false; [rewrite andb_false_r; reflexivity|].
    symmetry; apply Nat.ltb_ge; fold e; lia.
Qed.

End EraseFacts.

(** ** The segmenter *)

Section SegmenterFacts.

Context {E : ReEngine} {P : Type}.

Implicit Types (l cur : chain P) (res : list (chain P)) (c : component P).

Lemma append_plain_items cur (p : part) :
  append_plain cur p = cur ++ Spec.text_items p.
Proof.
  destruct p as [s|]; unfold Spec.text_items; simpl;
    [destruct (Str.nonempty s); simpl | ]; rewrite ?app_nil_r; reflexivity.
Qed.

Lemma fold_push_mid (ps : list part) res :
  fold_left push_mid ps res
  = res ++ flat_map (fun p => Spec.close_unit (Spec.text_items (P := P) p)) ps.
Proof.
  revert res; induction ps as [|p ps IH]; intros res; simpl.
  - rewrite app_nil_r; reflexivity.
  - rewrite IH, app_assoc; f_equal; f_equal.
    destruct p as [s|]; unfold Spec.text_items; simpl;
      [destruct (Str.nonempty s); simpl | ]; rewrite ?app_nil_r; reflexivity.
Qed.

(** The parts of a text: the text itself when nothing matches, at
    least two parts otherwise. *)
Lemma parts_cases (r : pattern) (t : string) :
  (sre_matches r t = [] /\ Re.pattern_split r t = [Some t])
  \/ (sre_matches r t <> [] /\
      exists first interior final,
        Re.pattern_split r t = first :: interior ++ [final]).
Proof.
  unfold Re.pattern_split.
  destruct (sre_matches r t) as [|m ms] eqn:Hms.
  - left; split; [reflexivity | apply SplitFacts.split_from_no_match].
  - right; split; [discriminate|].
    destruct (SplitFacts.split_from_head t 0 (m :: ms)) as (tl & Heq & Htl).
    assert (Hne : tl <> []) by (intros Hn; apply Htl in Hn; discriminate).
    rewrite Heq.
    exists (Some (Str.slice 0 (m_start m) t)), (removelast tl), (last tl None).
    change (Some (Str.slice 0 (m_start m) t) :: removelast tl ++ [last tl None])
      with (Some (Str.slice 0 (m_start m) t) :: (removelast tl ++ [last tl None])).
    rewrite <- (split_last tl None Hne); reflexivity.
Qed.

Lemma split_step_one (pat : string) (r : pattern) (t : string) res cur :
  re_compile pat = Some r ->
  Re.pattern_split r t = [Some t] ->
  split_step pat (res, cur) (Plain t) = Ret (res, cur ++ [Plain t]).
Proof.
  intros Hc Hp; unfold split_step, Re.re_split; rewrite Hc; simpl.
  rewrite Hp; reflexivity.
Qed.

Lemma split_step_many (pat : string) (r : pattern) (t : string) res cur
  (first : part) (interior : list part) (final : part) :
  re_compile pat = Some r ->
  Re.pattern_split r t = first :: interior ++ [final] ->
  split_step pat (res, cur) (Plain t)
  = Ret (res ++ Spec.close_unit (cur ++ Spec.text_items first)
             ++ flat_map (fun p => Spec.close_unit (Spec.text_items p)) interior,
         Spec.text_items final).
Proof.
  intros Hc Hp; unfold split_step, Re.re_split; rewrite Hc; simpl.
  rewrite Hp.
  replace (Nat.eqb (List.length (first :: interior ++ [final])) 1) with false.
  2:{ symmetry; apply Nat.eqb_neq; simpl; rewrite length_app; simpl; lia. }
  unfold index, index_last, mid_parts; simpl.
  replace (last (interior ++ [final]) first) with final by (rewrite last_last; reflexivity).
  rewrite List.removelast_last.
  rewrite !append_plain_items.
  destruct (cur ++ Spec.text_items first) as [|x u] eqn:Hu; simpl;
    rewrite fold_push_mid, ?append_plain_items; rewrite ?app_nil_r;
    try rewrite <- app_assoc; reflexivity.
Qed.

Lemma split_step_spec (pat : string) (r : pattern) :
  re_compile pat = Some r ->
  forall st c, exists st',
    split_step pat st c = Ret st'
    /\ Spec.accumulate (Re.pattern_split r) st c st'.
Proof.
  intros Hc [res cur] [t|p].
  - destruct (parts_cases r t) as [[_ Hp] | [_ (first & interior & final & Hp)]].
    + eexists; split; [apply (split_step_one pat r); assumption|].
      apply Spec.acc_one_part with (p := Some t); exact Hp.
    + eexists; split; [apply (split_step_many pat r); eassumption|].
      apply Spec.acc_split; exact Hp.
  - eexists; split; [reflexivity | constructor].
Qed.

Lemma split_loop_spec (pat : string) (r : pattern) :
  re_compile pat = Some r ->
  forall l st, exists st',
    split_loop pat l st = Ret st'
    /\ Spec.accumulate_all (Re.pattern_split r) st l st'.
Proof.
  intros Hc; induction l as [|c l IH]; intros st; simpl.
  - exists st; split; [reflexivity | constructor].
  - destruct (split_step_spec pat r Hc st c) as (st1 & Hs & Ha).
    destruct (IH st1) as (st2 & Hl & Hall).
    exists st2; split; [rewrite Hs; exact Hl | econstructor; eassumption].
Qed.

Lemma split_chain_spec (pat : string) (r : pattern) l :
  re_compile pat = Some r ->
  exists res cur,
    split_chain l pat = Ret (res ++ Spec.close_unit cur)
    /\ Spec.accumulate_all (Re.pattern_split r) ([], []) l (res, cur).
Proof.
  intros Hc.
  destruct (split_loop_spec pat r Hc l ([], [])) as ([res cur] & Hl & Hall).
  exists res, cur; split; [|exact Hall].
  unfold split_chain; rewrite Hl; simpl.
  destruct cur; simpl; rewrite ?app_nil_r; reflexivity.
Qed.

Lemma accumulate_functional (f : string -> list part) st c st1 st2 :
  Spec.accumulate f st c st1 -> Spec.accumulate f st c st2 -> st1 = st2.
Proof.
  intros H1 H2; inversion H1; subst; inversion H2; subst; try reflexivity.
  - match goal with
    | Ha : f ?t = [_], Hb : f ?t = _ :: _ ++ [_] |- _ =>
        rewrite Ha in Hb; injection Hb as _ Hb; destruct interior; discriminate
    end.
  - match goal with
    | Ha : f ?t = [_], Hb : f ?t = _ :: _ ++ [_] |- _ =>
        rewrite Ha in Hb; injection Hb as _ Hb; destruct interior; discriminate
    end.
  - match goal with
    | Ha : f ?t = ?a :: ?i1 ++ [?z], Hb : f ?t = ?b :: ?i2 ++ [?y] |- _ =>
        rewrite Ha in Hb; injection Hb as Hab Hb;
        apply app_inj_tail in Hb; destruct Hb; subst; reflexivity
    end.
Qed.

Lemma accumulate_all_functional (f : string -> list part) l st st1 st2 :
  Spec.accumulate_all f st l st1 -> Spec.accumulate_all f st l st2 -> st1 = st2.
Proof.
  intros H1; revert st2; induction H1; intros st2 H2; inversion H2; subst.
  - reflexivity.
  - match goal with
    | Ha : Spec.accumulate f ?s ?c ?x, Hb : Spec.accumulate f ?s ?c ?y |- _ =>
        pose proof (accumulate_functional f s c x y Ha Hb); subst
    end.
    apply IHaccumulate_all; assumption.
Qed.

End SegmenterFacts.

Section SegmenterInvariants.

Context {E : ReEngine} {P : Type}.

Implicit Types (l cur : chain P) (res : list (chain P)) (c : component P).

Lemma concat_close_unit cur : List.concat (Spec.close_unit cur) = cur.
Proof. destruct cur; simpl; rewrite ?app_nil_r; reflexivity. Qed.

Lemma concat_interior (ps : list part) :
  List.concat (flat_map (fun p => Spec.close_unit (Spec.text_items (P := P) p)) ps)
  = flat_map Spec.text_items ps.
Proof.
  induction ps as [|p ps IH]; simpl; [reflexivity|].
  rewrite concat_app, concat_close_unit, IH; reflexivity.
Qed.

Lemma accumulate_concat (r : pattern) st c st' :
  Spec.accumulate (Re.pattern_split r) st c st' ->
  List.concat (fst st') ++ snd st' = (List.concat (fst st) ++ snd st) ++ Spec.pieces r c.
Proof.
  intros Ha; inversion Ha; subst; simpl.
  - rewrite app_assoc; reflexivity.
  - match goal with Hp : Re.pattern_split r t = [_] |- _ =>
      apply SplitFacts.split_from_one in Hp; rewrite Hp end.
    rewrite app_assoc; reflexivity.
  - destruct (sre_matches r t) as [|m ms] eqn:Hms.
    + match goal with Hp : Re.pattern_split r t = _ |- _ =>
        unfold Re.pattern_split in Hp; rewrite Hms in Hp; simpl in Hp;
        injection Hp as _ Hp; destruct interior; discriminate end.
    + match goal with Hp : Re.pattern_split r t = _ |- _ => rewrite Hp end.
      simpl; rewrite !concat_app, concat_close_unit, concat_interior.
      rewrite flat_map_app; simpl; rewrite app_nil_r, <- !app_assoc; reflexivity.
Qed.

Lemma accumulate_all_concat (r : pattern) st l st' :
  Spec.accumulate_all (Re.pattern_split r) st l st' ->
  List.concat (fst st') ++ snd st'
  = (List.concat (fst st) ++ snd st) ++ flat_map (Spec.pieces r) l.
Proof.
  induction 1 as [st | st c st1 l st2 Ha Hall IH]; simpl.
  - rewrite app_nil_r; reflexivity.
  - rewrite IH, (accumulate_concat r st c st1 Ha), <- app_assoc; reflexivity.
Qed.

Lemma units_concat (r : pattern) l res cur :
  Spec.accumulate_all (Re.pattern_split r) ([], []) l (res, cur) ->
  List.concat (res ++ Spec.close_unit cur) = flat_map (Spec.pieces r) l.
Proof.
  intros Hall; rewrite concat_app, concat_close_unit.
  exact (accumulate_all_concat r _ l _ Hall).
Qed.

Lemma close_unit_nonnil_all cur : Forall (fun u : chain P => u <> []) (Spec.close_unit cur).
Proof. destruct cur; simpl; constructor; [discriminate | constructor]. Qed.

Lemma interior_nonnil_all (ps : list part) :
  Forall (fun u : chain P => u <> [])
         (flat_map (fun p => Spec.close_unit (Spec.text_items p)) ps).
Proof.
  induction ps as [|p ps IH]; simpl; [constructor|].
  apply Forall_app; split; [apply close_unit_nonnil_all | exact IH].
Qed.

Lemma accumulate_all_nonnil (f : string -> list part) st l st' :
  Spec.accumulate_all f st l st' ->
  Forall (fun u => u <> []) (fst st) -> Forall (fun u => u <> []) (fst st').
Proof.
  induction 1 as [st | st c st1 l st2 Ha Hall IH]; intros Hres; [exact Hres|].
  apply IH; inversion Ha; subst; simpl in *; try exact Hres.
  repeat (apply Forall_app; split);
    [exact Hres | apply close_unit_nonnil_all | apply interior_nonnil_all].
Qed.

Lemma text_items_nonempty (p : part) :
  Forall (fun c => Spec.text_nonempty c = true) (Spec.text_items (P := P) p).
Proof.
  unfold Spec.text_items; destruct p as [s|]; simpl; [|constructor].
  destruct (Str.nonempty s) eqn:Hs; constructor; [exact Hs | constructor].
Qed.

Lemma close_unit_all (Q : chain P -> Prop) cur :
  Q cur -> Forall Q (Spec.close_unit cur).
Proof. intros Hq; destruct cur; simpl; constructor; [exact Hq | constructor]. Qed.

Lemma accumulate_all_text_nonempty (f : string -> list part) st l st' :
  Spec.accumulate_all f st l st' ->
  Forall (fun c => Spec.text_nonempty c = true) l ->
  Forall (Forall (fun c => Spec.text_nonempty c = true)) (fst st) ->
  Forall (fun c => Spec.text_nonempty c = true) (snd st) ->
  Forall (Forall (fun c => Spec.text_nonempty c = true)) (fst st')
  /\ Forall (fun c => Spec.text_nonempty c = true) (snd st').
Proof.
  induction 1 as [st | st c st1 l st2 Ha Hall IH]; intros Hl Hres Hcur;
    [split; assumption|].
  inversion Hl as [|? ? Hc Hl']; subst.
  apply IH; [exact Hl' | |]; inversion Ha; subst; simpl in *;
    try exact Hres; try (apply Forall_app; split; [exact Hcur | repeat constructor; exact Hc]).
  - repeat (apply Forall_app; split); [exact Hres | |].
    + apply close_unit_all, Forall_app; split;
        [exact Hcur | apply text_items_nonempty].
    + clear; induction interior as [|p ps IHp]; simpl; [constructor|].
      apply Forall_app; split; [|exact IHp].
      apply close_unit_all, text_items_nonempty.
  - apply text_items_nonempty.
Qed.

End SegmenterInvariants.

Section SegmenterClaims.

Context {E : ReEngine} {P : Type}.

Implicit Types (l cur : chain P) (res : list (chain P)) (c : component P).

Lemma chain_text_app l1 l2 :
  Spec.chain_text (l1 ++ l2) = (Spec.chain_text l1 ++ Spec.chain_text l2)%string.
Proof.
  induction l1 as [|[t|p] l1 IH]; simpl; rewrite ?IH, ?StrFacts.append_assoc;
    reflexivity.
Qed.

Lemma chain_text_items (ps : list part) :
  Spec.chain_text (P := P) (flat_map Spec.text_items ps)
  = Str.join (map part_text ps).
Proof.
  induction ps as [|p ps IH]; simpl; [reflexivity|].
  rewrite chain_text_app, IH; f_equal.
  unfold Spec.text_items; destruct p as [s|]; simpl; [|reflexivity].
  destruct s; simpl; rewrite ?StrFacts.append_nil_r; reflexivity.
Qed.

Lemma pieces_text (r : pattern) (t : string) :
  Spec.spans_ok 0 (String.length t) (sre_matches r t) = true ->
  (forall m, In m (sre_matches r t) -> m_groups m = []) ->
  Spec.chain_text (Spec.pieces (P := P) r (Plain t)) = Spec.without_matches r t.
Proof.
  intros Hok Hg; unfold Spec.pieces, Spec.without_matches.
  destruct (sre_matches r t) as [|m ms] eqn:Hms.
  - simpl; rewrite StrFacts.append_nil_r; symmetry.
    apply EraseFacts.erase_keep; reflexivity.
  - unfold Re.pattern_split; rewrite Hms, chain_text_items.
    rewrite (SplitFacts.join_split_sub t (m :: ms) 0 Hg).
    apply (EraseFacts.sub_from_erase t (m :: ms) 0 Hok).
Qed.

Lemma pieces_opaques (r : pattern) l :
  Spec.opaques (flat_map (Spec.pieces r) l) = Spec.opaques l.
Proof.
  assert (Hti : forall ps : list part,
             Spec.opaques (P := P) (flat_map Spec.text_items ps) = []).
  { induction ps as [|p ps IH]; simpl; [reflexivity|].
    unfold Spec.text_items at 1; destruct (truthy p); simpl; exact IH. }
  assert (Happ : forall l1 l2 : chain P,
             Spec.opaques (l1 ++ l2) = Spec.opaques l1 ++ Spec.opaques l2).
  { induction l1 as [|[t|p] l1 IH]; intros l2; simpl; rewrite ?IH; reflexivity. }
  induction l as [|[t|p] l IH]; simpl; [reflexivity | | rewrite IH; reflexivity].
  rewrite Happ, IH.
  destruct (sre_matches r t); simpl; [reflexivity | rewrite Hti; reflexivity].
Qed.

Lemma accumulate_all_opaque (f : string -> list part) l res cur st' :
  Forall (fun c => Spec.is_text c = false) l ->
  Spec.accumulate_all f (res, cur) l st' -> st' = (res, cur ++ l).
Proof.
  intros Hl; revert cur; induction Hl as [|c l Hc Hl IH]; intros cur Hall;
    inversion Hall; subst.
  - rewrite app_nil_r; reflexivity.
  - match goal with Ha : Spec.accumulate _ _ _ _ |- _ =>
      inversion Ha; subst; try discriminate end.
    rewrite (IH _ ltac:(eassumption)), <- app_assoc; reflexivity.
Qed.

Lemma parts_from_split (text : string) (ms : list rmatch) (pos : nat) :
  (forall m, In m ms -> m_groups m = []) ->
  Re.split_from text pos ms = Spec.parts_from text pos ms.
Proof.
  revert pos; induction ms as [|m ms IH]; intros pos Hg; simpl.
  - rewrite StrFacts.slice_to_end; reflexivity.
  - rewrite (Hg m (or_introl eq_refl)); simpl.
    f_equal; apply IH; intros m' Hm'; apply Hg; right; exact Hm'.
Qed.

(** The algorithm looks at the parts of the texts of the sequence
    only. *)
Lemma accumulate_all_ext (f g : string -> list part) l :
  (forall t, In (Plain t) l -> f t = g t) ->
  forall st st',
    Spec.accumulate_all f st l st' -> Spec.accumulate_all g st l st'.
Proof.
  induction l as [|c l IH]; intros Hfg st st' Hall; inversion Hall; subst.
  - constructor.
  - match goal with
    | Ha : Spec.accumulate f _ _ ?st1 |- _ =>
        apply (Spec.acc_next (st' := st1))
    end.
    + match goal with Ha : Spec.accumulate f _ _ _ |- _ => inversion Ha; subst end.
      * constructor.
      * eapply Spec.acc_one_part.
        rewrite <- (Hfg t (or_introl eq_refl)); eassumption.
      * apply Spec.acc_split.
        rewrite <- (Hfg t (or_introl eq_refl)); assumption.
    + apply IH; [intros t Ht; apply Hfg; right; exact Ht | assumption].
Qed.

Lemma segmenter_functional (f : string -> list part) l (units units' : list (chain P)) :
  Spec.segmenter f l units -> Spec.segmenter f l units' -> units' = units.
Proof.
  intros (res & cur & Hall & ->) (res' & cur' & Hall' & ->).
  pose proof (accumulate_all_functional _ l _ _ _ Hall' Hall) as Heq.
  injection Heq as -> ->; reflexivity.
Qed.

(** C1 (amended): for every sequence and every split pattern without
    capturing groups, [split_chain] returns the units of the
    accumulating-unit algorithm of section 4.2 run on the parts of
    section 4.2, the texts before, between and after the matches (the
    first part closes the current unit, interior parts are singleton
    units, the last part seeds the next unit, a text of one part is
    appended unchanged, the last unit is appended when it is not
    empty), and that algorithm has no other result. *)
Theorem split_chain_accumulating_units (pat : string) (r : pattern) l :
  re_compile pat = Some r ->
  Spec.group_free r l ->
  exists units,
    split_chain l pat = Ret units
    /\ Spec.segmenter (Spec.parts_between r) l units
    /\ forall units', Spec.segmenter (Spec.parts_between r) l units' -> units' = units.
Proof.
  intros Hc Hg.
  destruct (split_chain_spec pat r l Hc) as (res & cur & Hrun & Hall).
  assert (Hseg : Spec.segmenter (Spec.parts_between r) l
                   (res ++ Spec.close_unit cur)).
  { exists res, cur; split; [|reflexivity].
    apply (accumulate_all_ext (Re.pattern_split r)); [|exact Hall].
    intros t Ht; apply parts_from_split.
    intros m Hm; exact (Hg t m Ht Hm). }
  exists (res ++ Spec.close_unit cur); split; [exact Hrun|].
  split; [exact Hseg|].
  intros units' Hseg'; exact (segmenter_functional _ l _ _ Hseg Hseg').
Qed.

(** C2 (amended): for every sequence and every split pattern without
    capturing groups, the texts of the TextItems of the units,
    concatenated in order, are the texts of the input's TextItems with
    the matched separators removed. *)
Theorem units_text_reconstruction (pat : string) (r : pattern) l :
  re_compile pat = Some r ->
  Spec.scans_ok r l ->
  Spec.group_free r l ->
  exists units,
    split_chain l pat = Ret units
    /\ Spec.chain_text (List.concat units) = Spec.text_without_separators r l.
Proof.
  intros Hc Hok Hg.
  destruct (split_chain_spec pat r l Hc) as (res & cur & Hrun & Hall).
  exists (res ++ Spec.close_unit cur); split; [exact Hrun|].
  rewrite (units_concat r l res cur Hall).
  clear Hrun Hall; induction l as [|[t|p] l IH];
    cbn [flat_map Spec.text_without_separators]; [reflexivity | |].
  - rewrite chain_text_app, pieces_text, IH.
    + reflexivity.
    + intros t' Ht'; apply Hok; right; exact Ht'.
    + intros t' m Ht'; apply Hg; right; exact Ht'.
    + apply Hok; left; reflexivity.
    + intros m; apply Hg; left; reflexivity.
  - simpl; apply IH.
    + intros t' Ht'; apply Hok; right; exact Ht'.
    + intros t' m Ht'; apply Hg; right; exact Ht'.
Qed.

(** C6 (amended): for every sequence and every split pattern that
    compiles, the units, laid end to end, are the input's items in
    order with each TextItem replaced by its non-empty parts: every
    OpaqueItem is in exactly one unit, whole, and in its place among
    the surrounding content; a non-empty input with no TextItem gives
    exactly one unit, the input itself, and the empty input gives no
    unit. *)
Theorem opaque_items_preserved (pat : string) (r : pattern) l :
  re_compile pat = Some r ->
  exists units,
    split_chain l pat = Ret units
    /\ List.concat units = flat_map (Spec.pieces r) l
    /\ Spec.opaques (List.concat units) = Spec.opaques l
    /\ (Forall (fun c => Spec.is_text c = false) l ->
        units = match l with [] => [] | _ :: _ => [l] end).
Proof.
  intros Hc.
  destruct (split_chain_spec pat r l Hc) as (res & cur & Hrun & Hall).
  exists (res ++ Spec.close_unit cur); split; [exact Hrun|].
  pose proof (units_concat r l res cur Hall) as Hcat.
  split; [exact Hcat|].
  split; [rewrite Hcat; apply pieces_opaques|].
  intros Hl.
  pose proof (accumulate_all_opaque _ l [] [] _ Hl Hall) as Heq.
  injection Heq as -> ->; destruct l; reflexivity.
Qed.

(** C7 (amended): for every sequence and every split pattern that
    compiles, no unit is empty; and when no TextItem of the input has
    the empty string as its text, as the cleaner ensures, no TextItem of
    a unit has. *)
Theorem units_never_empty (pat : string) (r : pattern) l :
  re_compile pat = Some r ->
  exists units,
    split_chain l pat = Ret units
    /\ Forall (fun u => u <> []) units
    /\ (Forall (fun c => Spec.text_nonempty c = true) l ->
        Forall (Forall (fun c => Spec.text_nonempty c = true)) units).
Proof.
  intros Hc.
  destruct (split_chain_spec pat r l Hc) as (res & cur & Hrun & Hall).
  exists (res ++ Spec.close_unit cur); split; [exact Hrun|].
  split.
  - apply Forall_app; split; [|apply close_unit_nonnil_all].
    apply (accumulate_all_nonnil _ _ l _ Hall); constructor.
  - intros Hl.
    destruct (accumulate_all_text_nonempty _ _ l _ Hall Hl) as [Hres Hcur];
      try constructor.
    apply Forall_app; split; [exact Hres | apply close_unit_all; exact Hcur].
Qed.

End SegmenterClaims.

(** ** The cleaner *)

Section CleanerClaims.

Context {E : ReEngine} {P : Type}.

Implicit Types (l acc : chain P) (c : component P).

Lemma clean_loop_disabled l (full : string) acc :
  clean_loop "" l (full, acc)
  = Ret ((full ++ Spec.chain_text l)%string, acc ++ filter Spec.text_nonempty l).
Proof.
  revert full acc; induction l as [|[t|p] l IH]; intros full acc; simpl.
  - rewrite StrFacts.append_nil_r, app_nil_r; reflexivity.
  - rewrite IH, StrFacts.append_assoc.
    destruct (Str.nonempty t); simpl; rewrite <- ?app_assoc; reflexivity.
  - rewrite IH, <- app_assoc; reflexivity.
Qed.

Lemma sub_without_matches (r : pattern) (t : string) :
  Spec.spans_ok 0 (String.length t) (sre_matches r t) = true ->
  Re.pattern_sub_empty r t = Spec.without_matches r t.
Proof.
  intros Hok; exact (EraseFacts.sub_from_erase t (sre_matches r t) 0 Hok).
Qed.

Lemma clean_loop_enabled (pat : string) (r : pattern) l (full : string) acc :
  Str.nonempty pat = true ->
  re_compile pat = Some r ->
  Spec.scans_ok r l ->
  clean_loop pat l (full, acc)
  = Ret ((full ++ Spec.chain_text l)%string, acc ++ Spec.cleaned r l).
Proof.
  intros Hne Hc; revert full acc; induction l as [|[t|p] l IH];
    intros full acc Hok; simpl.
  - rewrite StrFacts.append_nil_r, app_nil_r; reflexivity.
  - rewrite Hne; unfold Re.re_sub; rewrite Hc; simpl.
    rewrite sub_without_matches by (apply Hok; left; reflexivity).
    rewrite IH by (intros t' Ht'; apply Hok; right; exact Ht').
    rewrite StrFacts.append_assoc; unfold Spec.text_items; simpl.
    destruct (Str.nonempty (Spec.without_matches r t)); simpl;
      rewrite <- ?app_assoc; reflexivity.
  - rewrite IH by (intros t' Ht'; apply Hok; right; exact Ht').
    rewrite <- app_assoc; reflexivity.
Qed.

Lemma filter_opaques l :
  Spec.opaques (filter Spec.text_nonempty l) = Spec.opaques l.
Proof.
  induction l as [|[t|p] l IH]; simpl; [reflexivity | | rewrite IH; reflexivity].
  destruct (Str.nonempty t); simpl; exact IH.
Qed.

Lemma cleaned_opaques (r : pattern) l :
  Spec.opaques (Spec.cleaned r l) = Spec.opaques l.
Proof.
  induction l as [|[t|p] l IH]; simpl; [reflexivity | | rewrite IH; reflexivity].
  unfold Spec.text_items; destruct (truthy (Some (Spec.without_matches r t)));
    simpl; exact IH.
Qed.

Lemma filter_all_nonempty l :
  Forall (fun c => Spec.text_nonempty c = true) l ->
  filter Spec.text_nonempty l = l.
Proof.
  induction 1 as [|c l Hc Hl IH]; simpl; [reflexivity|].
  rewrite Hc, IH; reflexivity.
Qed.

Lemma cleaned_nonempty (r : pattern) l :
  Forall (fun c => Spec.text_nonempty c = true) (Spec.cleaned r l).
Proof.
  induction l as [|[t|p] l IH]; simpl; [constructor | |].
  - apply Forall_app; split; [apply text_items_nonempty | exact IH].
  - constructor; [reflexivity | exact IH].
Qed.

Lemma filter_nonempty l :
  Forall (fun c => Spec.text_nonempty c = true) (filter Spec.text_nonempty l).
Proof.
  apply Forall_forall; intros c Hc; apply filter_In in Hc; tauto.
Qed.

(** The cleaner on a sequence whose patterns, when there is one,
    compiles. *)
Lemma clean_chain_result (pat : string) (r : pattern) l :
  (pat <> "" -> re_compile pat = Some r /\ Spec.scans_ok r l) ->
  clean_chain pat l
  = Ret (Spec.chain_text l,
         if Str.nonempty pat then Spec.cleaned r l else filter Spec.text_nonempty l).
Proof.
  intros Hpat; unfold clean_chain.
  destruct (Str.nonempty pat) eqn:Hne.
  - destruct Hpat as [Hc Hok]; [apply StrFacts.nonempty_true; exact Hne|].
    exact (clean_loop_enabled pat r l "" [] Hne Hc Hok).
  - apply StrFacts.nonempty_false in Hne; subst pat.
    exact (clean_loop_disabled l "" []).
Qed.

(** C5 (amended): with an empty pattern the cleaner changes no text
    and omits the TextItems whose text is empty, so that its output is
    the input when there is none; with a non-empty pattern it removes
    every match from each TextItem's text and omits the TextItems left
    empty; in both cases the OpaqueItems pass unchanged and in order. *)
Theorem cleaner_contract (pat : string) (r : pattern) l :
  (pat <> "" -> re_compile pat = Some r /\ Spec.scans_ok r l) ->
  exists out,
    clean_chain pat l = Ret (Spec.chain_text l, out)
    /\ (pat = "" -> out = filter Spec.text_nonempty l)
    /\ (pat = "" -> Forall (fun c => Spec.text_nonempty c = true) l -> out = l)
    /\ (pat <> "" -> out = Spec.cleaned r l)
    /\ Spec.opaques out = Spec.opaques l.
Proof.
  intros Hpat; eexists; split; [apply (clean_chain_result pat r l Hpat)|].
  destruct (Str.nonempty pat) eqn:Hne.
  - apply StrFacts.nonempty_true in Hne.
    repeat split; try (intros; congruence). apply cleaned_opaques.
  - apply StrFacts.nonempty_false in Hne.
    repeat split; try (intros; congruence).
    + intros _ Hl; apply filter_all_nonempty; exact Hl.
    + apply filter_opaques.
Qed.

End CleanerClaims.

(** ** Delivery *)

Section DeliveryFacts.

Context {E : ReEngine} {P : Type} {H : Host P}.

Lemma send_segments_delivery (umo : string) (delay : Q) (l : list (chain P)) :
  forall (i : nat) (s : state),
  exists tr w',
    send_segments umo delay (i + List.length l) i l s = (Ret tt, (w', snd s ++ tr))
    /\ Spec.delivery umo delay l (fst s) tr w'.
Proof.
  induction l as [|u l IH]; intros i [w tr0].
  - exists [], w; simpl; rewrite app_nil_r; split; [reflexivity | constructor].
  - simpl List.length; replace (i + S (List.length l)) with (S i + List.length l) by lia.
    cbn [send_segments].
    destruct u as [|x u]; cbn [nonnil negb].
    + destruct (IH (S i) (w, tr0)) as (tr & w' & Hrun & Hd).
      exists tr, w'; split; [|constructor; exact Hd].
      unfold mbind, ret; exact Hrun.
    + unfold mbind at 1, try_except, mbind, ask, logger, record_call, ret; simpl fst; simpl snd.
      destruct (send_message umo (x :: u) w) as [[[]|e] w1] eqn:Hsend.
      * destruct l as [|u' l'].
        -- replace (i <? S i + List.length (@nil (chain P)) - 1) with false
             by (symmetry; apply Nat.ltb_ge; simpl; lia).
           exists [SendMessage umo (x :: u)], w1; split; [reflexivity|].
           apply Spec.dl_last; [discriminate | exact Hsend].
        -- replace (i <? S i + List.length (u' :: l') - 1) with true
             by (symmetry; apply Nat.ltb_lt; simpl; lia).
           destruct (IH (S i) (sleep delay w1,
                               (tr0 ++ [SendMessage umo (x :: u)]) ++ [Sleep delay]))
             as (tr & w' & Hrun & Hd).
           exists (SendMessage umo (x :: u) :: Sleep delay :: tr), w'; split.
           ++ cbn [fst snd] in *; rewrite Hrun, <- !app_assoc; reflexivity.
           ++ apply Spec.dl_sent with (w1 := w1);
                [discriminate | discriminate | exact Hsend | exact Hd].
      * destruct (IH (S i) (w1, (tr0 ++ [SendMessage umo (x :: u)])
                                  ++ [Log ERROR (MsgSendFailed e)]))
          as (tr & w' & Hrun & Hd).
        exists (SendMessage umo (x :: u) :: Log ERROR (MsgSendFailed e) :: tr), w'.
        split.
        -- cbn [fst snd] in *; rewrite Hrun, <- !app_assoc; reflexivity.
        -- apply Spec.dl_failed with (w1 := w1);
             [discriminate | exact Hsend | exact Hd].
Qed.

Lemma delivery_sends (umo : string) (delay : Q) (l : list (chain P))
  (w : world) (tr : list (call P)) (w' : world) :
  Spec.delivery umo delay l w tr w' ->
  Spec.sends tr = map (pair umo) (filter nonnil l)
  /\ Spec.updates tr = []
  /\ Spec.logs WARNING tr = [].
Proof.
  induction 1 as [w | l w tr w' Hd IH | u w w1 Hu Hs
                  | u l w w1 tr w' Hu Hl Hs Hd IH
                  | u l w e w1 tr w' Hu Hs Hd IH]; simpl.
  - repeat split.
  - exact IH.
  - destruct u; [congruence | repeat split].
  - destruct IH as (IH1 & IH2 & IH3).
    destruct u; [congruence | simpl; rewrite IH1; repeat split; assumption].
  - destruct IH as (IH1 & IH2 & IH3).
    destruct u; [congruence | simpl; rewrite IH1; repeat split; assumption].
Qed.

Lemma filter_nonnil_all (l : list (chain P)) :
  Forall (fun u => u <> []) l -> filter nonnil l = l.
Proof.
  induction 1 as [|u l Hu Hl IH]; simpl; [reflexivity|].
  destruct u; [congruence | simpl; rewrite IH; reflexivity].
Qed.

(** C4 (amended): the delivery loop attempts every unit in order and
    never raises: a delivery that fails is logged as an error and the
    next unit is attempted at once; the delay is slept after a delivery
    that succeeded, when the unit is not the last. *)
Theorem delivery_continues_after_failure (umo : string) (delay : Q)
  (segments : list (chain P)) (s : state) :
  exists tr w',
    send_segments umo delay (List.length segments) 0 segments s
    = (Ret tt, (w', snd s ++ tr))
    /\ Spec.delivery umo delay segments (fst s) tr w'
    /\ Spec.sends tr = map (pair umo) (filter nonnil segments).
Proof.
  destruct (send_segments_delivery umo delay segments 0 s) as (tr & w' & Hrun & Hd).
  exists tr, w'; split; [exact Hrun|]; split; [exact Hd|].
  apply (delivery_sends umo delay segments (fst s) tr w' Hd).
Qed.

End DeliveryFacts.

(** ** History capture *)

Section HistoryFacts.

Context {P : Type} {H : Host P}.

Implicit Types (ev : event P) (w : world) (tr : list (call P)).

Ltac run_history :=
  unfold save_history, try_except, mbind, ask, lift, logger, record_call, ret;
  cbn [fst snd].

Lemma save_history_no_cid ev (content : string) w tr (cid : option string) w1 :
  get_curr_conversation_id (unified_msg_origin ev) w = (Ret cid, w1) ->
  truthy_str cid = false ->
  save_history ev content (w, tr)
  = (Ret tt, (w1, tr ++ [GetCurrConversationId (unified_msg_origin ev)])).
Proof.
  intros Hcid Hfalsy; run_history; rewrite Hcid.
  destruct cid as [cid|]; [|reflexivity].
  simpl in Hfalsy; rewrite Hfalsy; reflexivity.
Qed.

Lemma save_history_cid_raises ev (content : string) w tr (e : exn) w1 :
  get_curr_conversation_id (unified_msg_origin ev) w = (Raise e, w1) ->
  save_history ev content (w, tr)
  = (Ret tt, (w1, tr ++ [GetCurrConversationId (unified_msg_origin ev);
                         Log ERROR (MsgHistoryFailed e)])).
Proof.
  intros Hcid; run_history; rewrite Hcid; cbn [fst snd].
  rewrite <- app_assoc; reflexivity.
Qed.

Lemma save_history_no_conversation ev (content : string) w tr (cid : string) w1 w2 :
  get_curr_conversation_id (unified_msg_origin ev) w = (Ret (Some cid), w1) ->
  Str.nonempty cid = true ->
  get_conversation (unified_msg_origin ev) cid w1 = (Ret None, w2) ->
  save_history ev content (w, tr)
  = (Ret tt, (w2, tr ++ [GetCurrConversationId (unified_msg_origin ev);
                         GetConversation (unified_msg_origin ev) cid])).
Proof.
  intros Hcid Hne Hconv; run_history; rewrite Hcid, Hne; cbn [negb fst snd].
  rewrite Hconv, <- app_assoc; reflexivity.
Qed.

Lemma save_history_conversation_raises ev (content : string) w tr
  (cid : string) w1 (e : exn) w2 :
  get_curr_conversation_id (unified_msg_origin ev) w = (Ret (Some cid), w1) ->
  Str.nonempty cid = true ->
  get_conversation (unified_msg_origin ev) cid w1 = (Raise e, w2) ->
  save_history ev content (w, tr)
  = (Ret tt, (w2, tr ++ [GetCurrConversationId (unified_msg_origin ev);
                         GetConversation (unified_msg_origin ev) cid;
                         Log ERROR (MsgHistoryFailed e)])).
Proof.
  intros Hcid Hne Hconv; run_history; rewrite Hcid, Hne; cbn [negb fst snd].
  rewrite Hconv; cbn [fst snd]; rewrite <- !app_assoc; reflexivity.
Qed.

Lemma save_history_appends ev (content : string) w tr (cid : string) w1
  (conv : conversation) w2 (items : list json) (o : outcome unit) w3 :
  get_curr_conversation_id (unified_msg_origin ev) w = (Ret (Some cid), w1) ->
  Str.nonempty cid = true ->
  get_conversation (unified_msg_origin ev) cid w1 = (Ret (Some conv), w2) ->
  load_history conv = Ret (JArr items) ->
  update_conversation (unified_msg_origin ev) cid
    (JArr (items ++ [assistant_record content])) w2 = (o, w3) ->
  save_history ev content (w, tr)
  = (Ret tt,
     (w3, tr ++ [GetCurrConversationId (unified_msg_origin ev);
                 GetConversation (unified_msg_origin ev) cid;
                 UpdateConversation (unified_msg_origin ev) cid
                   (JArr (items ++ [assistant_record content]))]
             ++ match o with
                | Ret _ => []
                | Raise e => [Log ERROR (MsgHistoryFailed e)]
                end)).
Proof.
  intros Hcid Hne Hconv Hload Hup; run_history; rewrite Hcid, Hne; cbn [negb fst snd].
  rewrite Hconv, Hload; cbn [list_append fst snd]; rewrite Hup.
  destruct o as [[]|e]; cbn [fst snd]; rewrite <- !app_assoc; reflexivity.
Qed.

Lemma save_history_unreadable ev (content : string) w tr (cid : string) w1
  (conv : conversation) w2 (e : exn) :
  get_curr_conversation_id (unified_msg_origin ev) w = (Ret (Some cid), w1) ->
  Str.nonempty cid = true ->
  get_conversation (unified_msg_origin ev) cid w1 = (Ret (Some conv), w2) ->
  bind (load_history conv) (fun h => list_append h (assistant_record content))
  = Raise e ->
  save_history ev content (w, tr)
  = (Ret tt, (w2, tr ++ [GetCurrConversationId (unified_msg_origin ev);
                         GetConversation (unified_msg_origin ev) cid;
                         Log ERROR (MsgHistoryFailed e)])).
Proof.
  intros Hcid Hne Hconv Hload; run_history; rewrite Hcid, Hne; cbn [negb fst snd].
  rewrite Hconv.
  destruct (load_history conv) as [h|e']; simpl in Hload.
  - rewrite Hload; cbn [fst snd]; rewrite <- !app_assoc; reflexivity.
  - injection Hload as ->; cbn [fst snd]; rewrite <- !app_assoc; reflexivity.
Qed.

(** [save_history] returns, whatever the store does; it sends nothing,
    logs no warning and writes to the store at most once. *)
Lemma save_history_returns ev (content : string) (s : state) :
  exists w' tr,
    save_history ev content s = (Ret tt, (w', snd s ++ tr))
    /\ Spec.sends tr = []
    /\ Spec.logs WARNING tr = []
    /\ List.length (Spec.updates tr) <= 1.
Proof.
  destruct s as [w tr0]; cbn [snd].
  destruct (get_curr_conversation_id (unified_msg_origin ev) w)
    as [[cid|e] w1] eqn:Hcid.
  2:{ eexists _, _; split; [apply save_history_cid_raises; exact Hcid|].
      simpl; repeat split; lia. }
  destruct (truthy_str cid) eqn:Htr.
  2:{ eexists _, _; split; [eapply save_history_no_cid; eassumption|].
      simpl; repeat split; lia. }
  destruct cid as [cid|]; [simpl in Htr | discriminate].
  destruct (get_conversation (unified_msg_origin ev) cid w1)
    as [[[conv|]|e] w2] eqn:Hconv.
  3:{ eexists _, _; split; [eapply save_history_conversation_raises; eassumption|].
      simpl; repeat split; lia. }
  2:{ eexists _, _; split; [eapply save_history_no_conversation; eassumption|].
      simpl; repeat split; lia. }
  destruct (bind (load_history conv)
                 (fun h => list_append h (assistant_record content)))
    as [h|e] eqn:Hload.
  2:{ eexists _, _; split; [eapply save_history_unreadable; eassumption|].
      simpl; repeat split; lia. }
  destruct (load_history conv) as [[| | | |items|]|] eqn:Hl; try discriminate.
  destruct (update_conversation (unified_msg_origin ev) cid
              (JArr (items ++ [assistant_record content])) w2)
    as [o w3] eqn:Hup.
  eexists _, _; split; [eapply save_history_appends; eassumption|].
  destruct o as [[]|e]; simpl; repeat split; lia.
Qed.

(** [save_history] returns, and what it did is a capture of section
    4.4. *)
Lemma save_history_capture ev (content : string) (s : state) :
  exists tr w',
    save_history ev content s = (Ret tt, (w', snd s ++ tr))
    /\ Spec.capture (unified_msg_origin ev) content (fst s) tr w'.
Proof.
  destruct s as [w tr0]; cbn [fst snd].
  destruct (get_curr_conversation_id (unified_msg_origin ev) w)
    as [[cid|e] w1] eqn:Hcid.
  2:{ eexists _, _; split; [apply save_history_cid_raises; exact Hcid|].
      apply Spec.cap_id_failed; exact Hcid. }
  destruct (truthy_str cid) eqn:Htr.
  2:{ eexists _, _; split; [eapply save_history_no_cid; eassumption|].
      eapply Spec.cap_no_id; eassumption. }
  destruct cid as [cid|]; [simpl in Htr | discriminate].
  destruct (get_conversation (unified_msg_origin ev) cid w1)
    as [[[conv|]|e] w2] eqn:Hconv.
  3:{ eexists _, _; split; [eapply save_history_conversation_raises; eassumption|].
      eapply Spec.cap_conversation_failed; eassumption. }
  2:{ eexists _, _; split; [eapply save_history_no_conversation; eassumption|].
      eapply Spec.cap_no_conversation; eassumption. }
  destruct (bind (load_history conv)
                 (fun h => list_append h (assistant_record content)))
    as [h|e] eqn:Hload.
  2:{ eexists _, _; split; [eapply save_history_unreadable; eassumption|].
      eapply Spec.cap_history_failed; eassumption. }
  destruct (load_history conv) as [[| | | |items|]|] eqn:Hl; try discriminate.
  destruct (update_conversation (unified_msg_origin ev) cid
              (JArr (items ++ [assistant_record content])) w2)
    as [[[]|e] w3] eqn:Hup.
  - eexists _, _; split; [eapply save_history_appends; eassumption|].
    simpl; eapply Spec.cap_appended; eassumption.
  - eexists _, _; split; [eapply save_history_appends; eassumption|].
    simpl; eapply Spec.cap_update_failed; eassumption.
Qed.

Lemma capture_trace (umo content : string) w tr w' :
  Spec.capture umo content w tr w' ->
  Spec.sends tr = []
  /\ Spec.logs WARNING tr = []
  /\ (Spec.updates tr = []
      \/ exists items, Spec.updates tr = [JArr (items ++ [assistant_record content])]).
Proof.
  intros Hc; inversion Hc; subst; simpl; repeat split; eauto.
Qed.

(** C10: when the stored history does not parse as JSON,
    [save_history] takes the history as empty: it asks the store to
    replace the history by the list of the new assistant record alone,
    and returns without raising (an error of the store is logged). *)
Theorem malformed_history_overwritten ev (content : string) w tr (cid : string)
  w1 (conv : conversation) w2 (h : string) :
  get_curr_conversation_id (unified_msg_origin ev) w = (Ret (Some cid), w1) ->
  Str.nonempty cid = true ->
  get_conversation (unified_msg_origin ev) cid w1 = (Ret (Some conv), w2) ->
  history conv = Some h ->
  Str.nonempty h = true ->
  json_loads h = Raise JSONDecodeError ->
  exists o w3,
    update_conversation (unified_msg_origin ev) cid
      (JArr [assistant_record content]) w2 = (o, w3)
    /\ save_history ev content (w, tr)
       = (Ret tt,
          (w3, tr ++ [GetCurrConversationId (unified_msg_origin ev);
                      GetConversation (unified_msg_origin ev) cid;
                      UpdateConversation (unified_msg_origin ev) cid
                        (JArr [assistant_record content])]
                  ++ match o with
                     | Ret _ => []
                     | Raise e => [Log ERROR (MsgHistoryFailed e)]
                     end)).
Proof.
  intros Hcid Hne Hconv Hh Hhne Hjson.
  destruct (update_conversation (unified_msg_origin ev) cid
              (JArr [assistant_record content]) w2) as [o w3] eqn:Hup.
  exists o, w3; split; [reflexivity|].
  apply (save_history_appends ev content w tr cid w1 conv w2 [] o w3);
    try assumption.
  unfold load_history, parse_history; rewrite Hh, Hhne, Hjson; reflexivity.
Qed.

End HistoryFacts.

(** ** The dispatch *)

Section HandlerFacts.

Context {E : ReEngine} {P : Type} {H : Host P}.

Implicit Types (l cleaned : chain P) (segments : list (chain P))
  (ev : event P) (cfg : config) (s : state).

Lemma clean_loop_returns (pat : string) (r : pattern) l :
  (pat <> "" -> re_compile pat = Some r) ->
  forall (full : string) (acc : chain P),
    Forall (fun c => Spec.text_nonempty c = true) acc ->
    exists cleaned,
      clean_loop pat l (full, acc) = Ret ((full ++ Spec.chain_text l)%string, cleaned)
      /\ Forall (fun c => Spec.text_nonempty c = true) cleaned.
Proof.
  intros Hpat; induction l as [|[t|p] l IH]; intros full acc Hacc; simpl.
  - exists acc; rewrite StrFacts.append_nil_r; split; [reflexivity | exact Hacc].
  - assert (Hsub : exists t', (if Str.nonempty pat then Re.re_sub pat t else Ret t)
                              = Ret t').
    { destruct (Str.nonempty pat) eqn:Hne; [|eexists; reflexivity].
      unfold Re.re_sub; rewrite Hpat by (apply StrFacts.nonempty_true; exact Hne).
      eexists; reflexivity. }
    destruct Hsub as (t' & ->); simpl.
    destruct (IH (full ++ t)%string
                 (if Str.nonempty t' then acc ++ [Plain t'] else acc))
      as (cleaned & Hrun & Hne).
    { destruct (Str.nonempty t') eqn:Ht'; [|exact Hacc].
      apply Forall_app; split; [exact Hacc | repeat constructor; exact Ht']. }
    exists cleaned; split; [|exact Hne].
    rewrite <- StrFacts.append_assoc; exact Hrun.
  - destruct (IH full (acc ++ [Opaque p])) as (cleaned & Hrun & Hne).
    { apply Forall_app; split; [exact Hacc | repeat constructor]. }
    exists cleaned; split; assumption.
Qed.

(** The cleaner returns the text of the original sequence for the
    history and a sequence without empty texts. *)
Lemma clean_chain_returns (pat : string) (r : pattern) l :
  (pat <> "" -> re_compile pat = Some r) ->
  exists cleaned,
    clean_chain pat l = Ret (Spec.chain_text l, cleaned)
    /\ Forall (fun c => Spec.text_nonempty c = true) cleaned.
Proof.
  intros Hpat.
  exact (clean_loop_returns pat r l Hpat "" [] (Forall_nil _)).
Qed.

Lemma split_chain_returns (pat : string) (r : pattern) l :
  re_compile pat = Some r ->
  exists segments,
    split_chain l pat = Ret segments /\ Forall (fun u => u <> []) segments.
Proof.
  intros Hc.
  destruct (split_chain_spec pat r l Hc) as (res & cur & Hrun & Hall).
  exists (res ++ Spec.close_unit cur); split; [exact Hrun|].
  apply Forall_app; split; [|apply close_unit_nonnil_all].
  apply (accumulate_all_nonnil _ _ l _ Hall); constructor.
Qed.

(** The handler on a reply with content, once the cleaner and the
    segmenter have returned. *)
Lemma handler_noop cfg ev s l (full : string) cleaned segments :
  result_chain ev = Some l -> l <> [] ->
  clean_chain (get_clean_pattern cfg) l = Ret (full, cleaned) ->
  split_chain cleaned (get_split_pattern cfg) = Ret segments ->
  List.length segments <= 1 -> get_clean_pattern cfg = "" ->
  on_decorating_result cfg ev s = (Ret ev, s).
Proof.
  intros Hres Hl Hclean Hsplit Hlen Hcp.
  unfold on_decorating_result; rewrite Hres.
  destruct l as [|c l]; [congruence|]; cbn [nonnil negb].
  unfold mbind at 1, lift at 1; rewrite Hclean.
  unfold mbind at 1, lift at 1; rewrite Hsplit.
  rewrite Hcp; apply Nat.leb_le in Hlen; rewrite Hlen; reflexivity.
Qed.

Lemma handler_takeover cfg ev s l (full : string) cleaned segments :
  result_chain ev = Some l -> l <> [] ->
  clean_chain (get_clean_pattern cfg) l = Ret (full, cleaned) ->
  split_chain cleaned (get_split_pattern cfg) = Ret segments ->
  ~ (List.length segments <= 1 /\ get_clean_pattern cfg = "") ->
  exists tr1 w1 tr2 w2,
    save_history ev full
      (fst s, snd s ++ [Log INFO (MsgProcessed (List.length segments)
                                    (negb (String.eqb (get_clean_pattern cfg) "")))])
    = (Ret tt, (w1, (snd s ++ [Log INFO (MsgProcessed (List.length segments)
                                    (negb (String.eqb (get_clean_pattern cfg) "")))])
                    ++ tr1))
    /\ Spec.capture (unified_msg_origin ev) full (fst s) tr1 w1
    /\ Spec.delivery (unified_msg_origin ev) (get_delay cfg) segments w1 tr2 w2
    /\ on_decorating_result cfg ev s
       = (Ret (MkEvent (Some []) (unified_msg_origin ev) true),
          (w2, snd s
               ++ Log INFO (MsgProcessed (List.length segments)
                              (negb (String.eqb (get_clean_pattern cfg) "")))
               :: tr1 ++ tr2)).
Proof.
  intros Hres Hl Hclean Hsplit Htake.
  set (info := Log INFO (MsgProcessed (List.length segments)
                           (negb (String.eqb (get_clean_pattern cfg) "")))).
  destruct (save_history_capture ev full (fst s, snd s ++ [info]))
    as (tr1 & w1 & Hsave & Hcap).
  destruct (send_segments_delivery (unified_msg_origin ev) (get_delay cfg)
              segments 0 (w1, (snd s ++ [info]) ++ tr1))
    as (tr2 & w2 & Hsend & Hdel).
  exists tr1, w1, tr2, w2; cbn [fst snd] in *.
  split; [exact Hsave|]; split; [exact Hcap|]; split; [exact Hdel|].
  unfold on_decorating_result; rewrite Hres.
  destruct l as [|c l]; [congruence|]; cbn [nonnil negb].
  unfold mbind at 1, lift at 1; rewrite Hclean.
  unfold mbind at 1, lift at 1; rewrite Hsplit.
  replace (Nat.leb (List.length segments) 1
           && negb (negb (String.eqb (get_clean_pattern cfg) ""))) with false.
  2:{ symmetry; apply not_true_is_false; intros Hb.
      apply andb_prop in Hb; destruct Hb as [Hlen Hcp]; apply Htake.
      split; [apply Nat.leb_le; exact Hlen|].
      rewrite negb_involutive in Hcp; apply String.eqb_eq; exact Hcp. }
  unfold mbind at 1, logger, record_call; fold info.
  unfold mbind at 1; rewrite Hsave.
  unfold mbind at 1; simpl Nat.add in Hsend; rewrite Hsend.
  unfold ret; rewrite <- !app_assoc; reflexivity.
Qed.

End HandlerFacts.

Section DispatchClaims.

Context {E : ReEngine} {P : Type} {H : Host P}.

Implicit Types (l cleaned : chain P) (segments : list (chain P))
  (ev : event P) (cfg : config) (s : state).

Lemma clean_loop_full_text (pat : string) l :
  forall (full0 : string) (acc : chain P) (full : string) cleaned,
    clean_loop pat l (full0, acc) = Ret (full, cleaned) ->
    full = (full0 ++ Spec.chain_text l)%string.
Proof.
  induction l as [|[t|p] l IH]; intros full0 acc full cleaned Hrun; simpl in Hrun.
  - injection Hrun as <- _; simpl; rewrite StrFacts.append_nil_r; reflexivity.
  - destruct (if Str.nonempty pat then Re.re_sub pat t else Ret t) as [t'|e];
      simpl in Hrun; [|discriminate].
    apply IH in Hrun; rewrite Hrun; apply StrFacts.append_assoc.
  - apply IH in Hrun; exact Hrun.
Qed.

Lemma clean_loop_no_match (pat : string) (rc : pattern) l :
  re_compile pat = Some rc ->
  (forall t, In (Plain t) l -> t <> "" /\ sre_matches rc t = []) ->
  forall (full : string) (acc : chain P),
    clean_loop pat l (full, acc) = Ret ((full ++ Spec.chain_text l)%string, acc ++ l).
Proof.
  intros Hc; induction l as [|[t|p] l IH]; intros Hl full acc; simpl.
  - rewrite StrFacts.append_nil_r, app_nil_r; reflexivity.
  - destruct (Hl t (or_introl eq_refl)) as [Ht Hm].
    assert (Hsub : (if Str.nonempty pat then Re.re_sub pat t else Ret t) = Ret t).
    { destruct (Str.nonempty pat); [|reflexivity].
      unfold Re.re_sub, Re.pattern_sub_empty; rewrite Hc, Hm; simpl.
      rewrite StrFacts.slice_whole; reflexivity. }
    rewrite Hsub; simpl.
    apply StrFacts.nonempty_true in Ht; rewrite Ht.
    rewrite IH by (intros t' Ht'; apply Hl; right; exact Ht').
    rewrite StrFacts.append_assoc, <- app_assoc; reflexivity.
  - rewrite IH by (intros t' Ht'; apply Hl; right; exact Ht').
    rewrite <- app_assoc; reflexivity.
Qed.

Lemma split_loop_no_match (pat : string) (rs : pattern) l :
  re_compile pat = Some rs ->
  (forall t, In (Plain t) l -> sre_matches rs t = []) ->
  forall (res : list (chain P)) (cur : chain P),
    split_loop pat l (res, cur) = Ret (res, cur ++ l).
Proof.
  intros Hc; induction l as [|[t|p] l IH]; intros Hl res cur;
    cbn [split_loop].
  - rewrite app_nil_r; reflexivity.
  - rewrite (split_step_one pat rs t res cur Hc).
    2:{ unfold Re.pattern_split; rewrite (Hl t (or_introl eq_refl)).
        apply SplitFacts.split_from_no_match. }
    simpl; rewrite IH by (intros t' Ht'; apply Hl; right; exact Ht').
    rewrite <- app_assoc; reflexivity.
  - simpl; rewrite IH by (intros t' Ht'; apply Hl; right; exact Ht').
    rewrite <- app_assoc; reflexivity.
Qed.

(** C3: on a reply with content whose patterns compile, the handler
    is a no-op (event, world and calls unchanged) when there is at most
    one unit and no clean pattern; otherwise it logs, captures the
    history, attempts the delivery of every unit in order, and leaves
    the reply with an empty chain and the event stopped. *)
Theorem dispatch_decision cfg ev s l (rs rc : pattern) :
  result_chain ev = Some l -> l <> [] ->
  re_compile (get_split_pattern cfg) = Some rs ->
  (get_clean_pattern cfg <> "" -> re_compile (get_clean_pattern cfg) = Some rc) ->
  exists cleaned segments,
    clean_chain (get_clean_pattern cfg) l = Ret (Spec.chain_text l, cleaned)
    /\ split_chain cleaned (get_split_pattern cfg) = Ret segments
    /\ (List.length segments <= 1 /\ get_clean_pattern cfg = "" ->
        on_decorating_result cfg ev s = (Ret ev, s))
    /\ (~ (List.length segments <= 1 /\ get_clean_pattern cfg = "") ->
        exists tr1 w1 tr2 w2,
          Spec.capture (unified_msg_origin ev) (Spec.chain_text l) (fst s) tr1 w1
          /\ Spec.delivery (unified_msg_origin ev) (get_delay cfg) segments w1 tr2 w2
          /\ Spec.sends tr2 = map (pair (unified_msg_origin ev)) segments
          /\ on_decorating_result cfg ev s
             = (Ret (MkEvent (Some []) (unified_msg_origin ev) true),
                (w2, snd s
                     ++ Log INFO (MsgProcessed (List.length segments)
                                    (negb (String.eqb (get_clean_pattern cfg) "")))
                     :: tr1 ++ tr2))).
Proof.
  intros Hres Hl Hrs Hrc.
  destruct (clean_chain_returns (get_clean_pattern cfg) rc l Hrc)
    as (cleaned & Hclean & _).
  destruct (split_chain_returns (get_split_pattern cfg) rs cleaned Hrs)
    as (segments & Hsplit & Hnonnil).
  exists cleaned, segments; split; [exact Hclean|]; split; [exact Hsplit|].
  split.
  - intros [Hlen Hcp].
    apply (handler_noop cfg ev s l (Spec.chain_text l) cleaned segments); assumption.
  - intros Htake.
    destruct (handler_takeover cfg ev s l (Spec.chain_text l) cleaned segments
                Hres Hl Hclean Hsplit Htake)
      as (tr1 & w1 & tr2 & w2 & _ & Hcap & Hdel & Hrun).
    exists tr1, w1, tr2, w2; repeat split; try assumption.
    destruct (delivery_sends _ _ _ _ _ _ Hdel) as (Hsends & _).
    rewrite Hsends, (filter_nonnil_all segments Hnonnil); reflexivity.
Qed.


(** C9: the flag of the dispatch is the configuration's: on a reply
    with content, a clean pattern that is not empty makes the handler
    take over (the flag logged is [true], the units are sent, the chain
    is emptied and the event stopped), also when the pattern matches
    nothing and nothing is split, where the one unit sent is the
    original sequence. *)
Theorem cleaning_flag_is_configuration cfg ev s l (rs rc : pattern) :
  result_chain ev = Some l -> l <> [] ->
  get_clean_pattern cfg <> "" ->
  re_compile (get_clean_pattern cfg) = Some rc ->
  re_compile (get_split_pattern cfg) = Some rs ->
  exists cleaned segments tr1 w1 tr2 w2,
    clean_chain (get_clean_pattern cfg) l = Ret (Spec.chain_text l, cleaned)
    /\ split_chain cleaned (get_split_pattern cfg) = Ret segments
    /\ Spec.capture (unified_msg_origin ev) (Spec.chain_text l) (fst s) tr1 w1
    /\ Spec.delivery (unified_msg_origin ev) (get_delay cfg) segments w1 tr2 w2
    /\ Spec.sends tr2 = map (pair (unified_msg_origin ev)) segments
    /\ on_decorating_result cfg ev s
       = (Ret (MkEvent (Some []) (unified_msg_origin ev) true),
          (w2, snd s ++ Log INFO (MsgProcessed (List.length segments) true)
                     :: tr1 ++ tr2))
    /\ ((forall t, In (Plain t) l ->
           t <> "" /\ sre_matches rc t = [] /\ sre_matches rs t = []) ->
        cleaned = l /\ segments = [l]).
Proof.
  intros Hres Hl Hcp Hrc Hrs.
  destruct (clean_chain_returns (get_clean_pattern cfg) rc l (fun _ => Hrc))
    as (cleaned & Hclean & _).
  destruct (split_chain_returns (get_split_pattern cfg) rs cleaned Hrs)
    as (segments & Hsplit & Hnonnil).
  assert (Htake : ~ (List.length segments <= 1 /\ get_clean_pattern cfg = ""))
    by tauto.
  destruct (handler_takeover cfg ev s l (Spec.chain_text l) cleaned segments
              Hres Hl Hclean Hsplit Htake)
    as (tr1 & w1 & tr2 & w2 & _ & Hcap & Hdel & Hrun).
  exists cleaned, segments, tr1, w1, tr2, w2.
  split; [exact Hclean|]; split; [exact Hsplit|]; split; [exact Hcap|].
  split; [exact Hdel|]; split.
  { destruct (delivery_sends _ _ _ _ _ _ Hdel) as (Hsends & _).
    rewrite Hsends, (filter_nonnil_all segments Hnonnil); reflexivity. }
  split.
  { rewrite Hrun; apply String.eqb_neq in Hcp; rewrite Hcp; reflexivity. }
  intros Hnone.
  assert (Hcl : cleaned = l).
  { pose proof (clean_loop_no_match (get_clean_pattern cfg) rc l Hrc
                  (fun t Ht => let '(conj a (conj b _)) := Hnone t Ht in conj a b)
                  "" []) as Hrun'.
    pose proof (eq_trans (eq_sym Hrun') Hclean) as Heq.
    injection Heq as Heq; symmetry; exact Heq. }
  subst cleaned; split; [reflexivity|].
  pose proof (split_loop_no_match (get_split_pattern cfg) rs l Hrs
                (fun t Ht => let '(conj _ (conj _ c)) := Hnone t Ht in c)
                [] []) as Hrun'.
  assert (Hunits : split_chain l (get_split_pattern cfg)
                   = Ret (if nonnil l then [l] else [])).
  { unfold split_chain.
    exact (f_equal (fun o => bind o (fun st : list (chain P) * chain P =>
                                       let '(res, cur) := st in
                                       Ret (if nonnil cur then res ++ [cur] else res)))
                   Hrun'). }
  rewrite Hunits in Hsplit.
  destruct l; [congruence|]; simpl in Hsplit; injection Hsplit as <-; reflexivity.
Qed.

End DispatchClaims.

(** ** The executable engine keeps the engine's contract *)

Module MiniReFacts.

Import MiniRe.

Lemma set_cap_length (n : nat) (v : nat * nat) (c : caps) :
  List.length (set_cap n v c) = List.length c.
Proof.
  revert n; induction c as [|x c IH]; intros [|n]; simpl; auto.
Qed.

(** A match ends where the text goes on: not before its start, not
    after the end of the text, with as many groups as before. *)
Definition reached (s : list ascii) (i : nat) (c : caps)
  (s' : list ascii) (i' : nat) (c' : caps) : Prop :=
  i <= i' /\ i' + List.length s' = i + List.length s
  /\ List.length c' = List.length c.

Lemma reached_trans s i c s1 i1 c1 s2 i2 c2 :
  reached s i c s1 i1 c1 -> reached s1 i1 c1 s2 i2 c2 -> reached s i c s2 i2 c2.
Proof. unfold reached; intros (? & ? & ?) (? & ? & ?); repeat split; lia. Qed.

Lemma one_char_reached (p : ascii -> bool) s i c k res :
  one_char p s i c k = Some res ->
  exists s' i' c', k s' i' c' = Some res /\ reached s i c s' i' c'.
Proof.
  unfold one_char; destruct s as [|x s]; [discriminate|].
  destruct (p x); [|discriminate]; intros Hk.
  exists s, (S i), c; split; [exact Hk|].
  unfold reached; simpl; repeat split; lia.
Qed.

Lemma match_at_reached (r : regex) :
  forall s i c k res,
    match_at r s i c k = Some res ->
    exists s' i' c', k s' i' c' = Some res /\ reached s i c s' i' c'.
Proof.
  induction r as [| a | | | | a IHa b IHb | a IHa b IHb | a IHa | n a IHa];
    intros s i c k res Hm; cbn [match_at] in Hm;
    try (apply one_char_reached in Hm; exact Hm).
  - exists s, i, c; split; [exact Hm | unfold reached; repeat split; lia].
  - apply IHa in Hm; destruct Hm as (s1 & i1 & c1 & Hm & Hr1).
    apply IHb in Hm; destruct Hm as (s2 & i2 & c2 & Hm & Hr2).
    exists s2, i2, c2; split; [exact Hm | eapply reached_trans; eassumption].
  - destruct (match_at a s i c k) as [res'|] eqn:Ha.
    + injection Hm as <-; apply IHa in Ha; exact Ha.
    + apply IHb in Hm; exact Hm.
  - revert Hm; generalize (S (List.length s)); intros fuel; revert s i c.
    induction fuel as [|f IHf]; intros s i c Hm; cbn [star] in Hm.
    + exists s, i, c; split; [exact Hm | unfold reached; repeat split; lia].
    + match type of Hm with
      | match ?m with _ => _ end = _ => destruct m as [res'|] eqn:Ha
      end.
      * injection Hm as <-.
        apply IHa in Ha; destruct Ha as (s1 & i1 & c1 & Hk & Hr1).
        destruct (i1 =? i); [discriminate|].
        apply IHf in Hk; destruct Hk as (s2 & i2 & c2 & Hk & Hr2).
        exists s2, i2, c2; split; [exact Hk | eapply reached_trans; eassumption].
      * exists s, i, c; split; [exact Hm | unfold reached; repeat split; lia].
  - apply IHa in Hm; destruct Hm as (s1 & i1 & c1 & Hk & Hr1).
    exists s1, i1, (set_cap n (i, i1) c1); split; [exact Hk|].
    destruct Hr1 as (? & ? & ?); unfold reached; rewrite set_cap_length.
    repeat split; lia.
Qed.

Lemma search_span (r : regex) (ngroups : nat) (s : list ascii) :
  forall p adv b e c,
    search r ngroups s p adv = Some (b, e, c) ->
    p <= b /\ b <= e /\ e <= p + List.length s
    /\ (adv = true -> p < e) /\ List.length c = ngroups.
Proof.
  induction s as [|x s IH]; intros p adv b e c Hs; cbn [search] in Hs;
    match type of Hs with
    | match ?m with _ => _ end = _ => destruct m as [[j c0]|] eqn:Hm
    end; try discriminate.
  1,2: injection Hs as <- <- <-;
    apply match_at_reached in Hm;
    destruct Hm as (s' & i' & c' & Hk & Hle & Hlen & Hc);
    rewrite repeat_length in Hc;
    destruct adv; cbn [andb] in Hk;
      [destruct (i' =? p) eqn:Hip; [discriminate|];
       apply Nat.eqb_neq in Hip|];
      injection Hk as <- <-; repeat split; try lia; discriminate.
  apply IH in Hs; destruct Hs as (? & ? & ? & _ & ?); simpl.
  repeat split; lia.
Qed.

Lemma scan_spans (r : regex) (ngroups : nat) (text : list ascii) (fuel : nat) :
  forall pos adv,
    pos <= List.length text ->
    Forall (fun m : nat * nat * caps => List.length (snd m) = ngroups)
           (scan fuel r ngroups text pos adv)
    /\ forall (t : string),
         Spec.spans_ok pos (List.length text)
           (map (fun m : nat * nat * caps =>
                   let '(b, e, c) := m in MkMatch b e (map (group_text t) c))
                (scan fuel r ngroups text pos adv)) = true.
Proof.
  induction fuel as [|f IH]; intros pos adv Hpos; cbn [scan];
    [split; [constructor | reflexivity]|].
  destruct (search r ngroups (skipn pos text) pos adv) as [[[b e] c]|] eqn:Hs;
    [|split; [constructor | reflexivity]].
  apply search_span in Hs; rewrite length_skipn in Hs.
  destruct Hs as (Hb & He & Hlen & _ & Hc).
  destruct (IH e (e =? b)) as [Hg Hok]; [lia|].
  split; [constructor; [exact Hc | exact Hg]|].
  intros t; simpl; rewrite Hok.
  repeat (apply andb_true_intro; split); try reflexivity; apply Nat.leb_le; lia.
Qed.

Lemma list_ascii_length (t : string) :
  List.length (list_ascii_of_string t) = String.length t.
Proof. induction t; simpl; congruence. Qed.

(** The matches of a scan are in order and inside the text. *)
Lemma matches_spans_ok (r : regex * nat) (t : string) :
  Spec.spans_ok 0 (String.length t) (matches r t) = true.
Proof.
  unfold matches; rewrite <- list_ascii_length.
  apply scan_spans; lia.
Qed.

(** A pattern without groups reports none. *)
Lemma matches_no_groups (r : regex * nat) (t : string) (m : rmatch) :
  snd r = 0 -> In m (matches r t) -> m_groups m = [].
Proof.
  intros Hr Hin; unfold matches in Hin; rewrite Hr in Hin.
  apply in_map_iff in Hin; destruct Hin as ([[b e] c] & <- & Hin).
  destruct (scan_spans (fst r) 0 (list_ascii_of_string t)
              (2 * List.length (list_ascii_of_string t) + 2) 0 false
              (Nat.le_0_l _)) as [Hg _].
  rewrite Forall_forall in Hg; specialize (Hg _ Hin); simpl in Hg.
  destruct c; [reflexivity | discriminate].
Qed.

Lemma engine_scans_ok {P : Type} (r : @pattern MiniRe.engine) (l : chain P) :
  Spec.scans_ok r l.
Proof. intros t _; apply matches_spans_ok. Qed.

Lemma engine_group_free {P : Type} (r : @pattern MiniRe.engine) (l : chain P) :
  snd r = 0 -> Spec.group_free r l.
Proof. intros Hr t m _ Hin; exact (matches_no_groups r t m Hr Hin). Qed.

End MiniReFacts.

(** ** The claims on concrete replies *)

Section Examples.

#[local] Existing Instance MiniRe.engine.
#[local] Existing Instance Fixture.host.

Import Fixture.

Example blank_lines_compiles : re_compile blank_lines = Some blank_lines_re.
Proof. reflexivity. Qed.

Example split_hello_world :
  split_chain hello_world blank_lines = Ret [[Plain "Hello"]; [Plain "World"]].
Proof. reflexivity. Qed.

Example split_mixed :
  split_chain mixed blank_lines
  = Ret [[Plain "A"; Opaque 7; Plain "B"]; [Plain "C"]].
Proof. reflexivity. Qed.

Example clean_digits :
  clean_chain digits [Plain "abc123"; Opaque 7; Plain "123"]
  = Ret ("abc123123", [Plain "abc"; Opaque 7]).
Proof. reflexivity. Qed.

Example digits_cleaned_then_sent :
  snd (snd (on_decorating_result strip_digits (reply [Plain "abc123"])
              (start (with_history (Some "[]") []))))
  = [Log INFO (MsgProcessed 1 true);
     GetCurrConversationId "origin";
     GetConversation "origin" "c1";
     UpdateConversation "origin" "c1" (JArr [assistant_record "abc123"]);
     SendMessage "origin" [Plain "abc"]].
Proof. reflexivity. Qed.

Example all_digits_nothing_sent :
  on_decorating_result strip_digits (reply [Plain "123"])
    (start (with_history (Some "[]") []))
  = (Ret (MkEvent (Some []) "origin" true),
     (with_history (Some "[]") [],
      [Log INFO (MsgProcessed 0 true);
       GetCurrConversationId "origin";
       GetConversation "origin" "c1";
       UpdateConversation "origin" "c1" (JArr [assistant_record "123"])])).
Proof. reflexivity. Qed.

Example one_unit_untouched :
  on_decorating_result defaults (reply [Plain "Hello"])
    (start (with_history (Some "[]") []))
  = (Ret (reply [Plain "Hello"]), start (with_history (Some "[]") [])).
Proof. reflexivity. Qed.

Lemma mixed_scans_ok : Spec.scans_ok blank_lines_re mixed.
Proof.
  intros t [Ht|[Ht|[Ht|[]]]]; try discriminate; injection Ht as <-; reflexivity.
Qed.

Lemma mixed_group_free : Spec.group_free blank_lines_re mixed.
Proof.
  intros t m [Ht|[Ht|[Ht|[]]]]; try discriminate; injection Ht as <-.
  - intros [].
  - intros [<-|[]]; reflexivity.
Qed.

Lemma split_chain_accumulating_units_witness :
  re_compile blank_lines = Some blank_lines_re
  /\ Spec.group_free blank_lines_re mixed
  /\ exists units,
       split_chain mixed blank_lines = Ret units
       /\ Spec.segmenter (Spec.parts_between blank_lines_re) mixed units
       /\ forall units',
            Spec.segmenter (Spec.parts_between blank_lines_re) mixed units' ->
            units' = units.
Proof.
  split; [reflexivity|]; split; [exact mixed_group_free|].
  exact (split_chain_accumulating_units blank_lines blank_lines_re mixed
           eq_refl mixed_group_free).
Defined.

(** With the pattern [(b)] the parts of section 4.2 of ["abc"] are
    ["a"] and ["c"] and the algorithm gives two units; [split_chain]
    returns three, the separator among them. *)
Lemma split_chain_accumulating_units_counterexample :
  re_compile group_b = Some group_b_re
  /\ split_chain [Plain (payload := nat) "abc"] group_b
     = Ret [[Plain "a"]; [Plain "b"]; [Plain "c"]]
  /\ Spec.segmenter (Spec.parts_between group_b_re) [Plain (payload := nat) "abc"]
       [[Plain "a"]; [Plain "c"]]
  /\ ~ Spec.segmenter (Spec.parts_between group_b_re) [Plain (payload := nat) "abc"]
         [[Plain "a"]; [Plain "b"]; [Plain "c"]].
Proof.
  assert (Hseg : Spec.segmenter (Spec.parts_between group_b_re)
                   [Plain (payload := nat) "abc"] [[Plain "a"]; [Plain "c"]]).
  { exists [[Plain "a"]], [Plain "c"]; split; [|reflexivity].
    exact (Spec.acc_next
             (@Spec.acc_split nat (Spec.parts_between group_b_re)
                [] [] "abc" (Some "a") [] (Some "c") eq_refl)
             (@Spec.acc_done _ _ _)). }
  split; [reflexivity|]; split; [reflexivity|]; split; [exact Hseg|].
  intros Hbad.
  pose proof (segmenter_functional _ _ _ _ Hseg Hbad) as Heq; discriminate.
Qed.

Lemma units_text_reconstruction_witness :
  re_compile blank_lines = Some blank_lines_re
  /\ Spec.scans_ok blank_lines_re mixed
  /\ Spec.group_free blank_lines_re mixed
  /\ exists units,
       split_chain mixed blank_lines = Ret units
       /\ Spec.chain_text (List.concat units)
          = Spec.text_without_separators blank_lines_re mixed.
Proof.
  split; [reflexivity|].
  split; [exact mixed_scans_ok|].
  split; [exact mixed_group_free|].
  exact (units_text_reconstruction blank_lines blank_lines_re mixed
           eq_refl mixed_scans_ok mixed_group_free).
Defined.

(** With the pattern [(b)] the separator comes back as a unit of its
    own: the units' text is ["abc"], the text without its separator is
    ["ac"]. *)
Lemma units_text_reconstruction_counterexample :
  re_compile group_b = Some group_b_re
  /\ split_chain [Plain (payload := nat) "abc"] group_b
     = Ret [[Plain "a"]; [Plain "b"]; [Plain "c"]]
  /\ Spec.chain_text (List.concat [[Plain (payload := nat) "a"]; [Plain "b"]; [Plain "c"]])
     <> Spec.text_without_separators group_b_re [Plain (payload := nat) "abc"].
Proof.
  split; [reflexivity|]; split; [reflexivity|].
  vm_compute; discriminate.
Qed.

Lemma opaque_items_preserved_witness :
  re_compile blank_lines = Some blank_lines_re
  /\ exists units,
       split_chain mixed blank_lines = Ret units
       /\ List.concat units = flat_map (Spec.pieces blank_lines_re) mixed
       /\ Spec.opaques (List.concat units) = Spec.opaques mixed
       /\ (Forall (fun c => Spec.is_text c = false) mixed ->
           units = match mixed with [] => [] | _ :: _ => [mixed] end).
Proof.
  split; [reflexivity|].
  exact (opaque_items_preserved blank_lines blank_lines_re mixed eq_refl).
Defined.

(** The empty sequence has no TextItem and gives no unit, not one. *)
Lemma opaque_items_preserved_counterexample :
  Forall (fun c => Spec.is_text c = false) (@nil (component nat))
  /\ split_chain (@nil (component nat)) blank_lines = Ret []
  /\ List.length (@nil (chain nat)) <> 1.
Proof.
  split; [constructor|]; split; [reflexivity | discriminate].
Qed.

Lemma units_never_empty_witness :
  re_compile blank_lines = Some blank_lines_re
  /\ exists units,
       split_chain mixed blank_lines = Ret units
       /\ Forall (fun u => u <> []) units
       /\ (Forall (fun c => Spec.text_nonempty c = true) mixed ->
           Forall (Forall (fun c => Spec.text_nonempty c = true)) units).
Proof.
  split; [reflexivity|].
  exact (units_never_empty blank_lines blank_lines_re mixed eq_refl).
Defined.

(** A TextItem with the empty text, in which nothing matches, is
    appended as it is. *)
Lemma units_never_empty_counterexample :
  split_chain [Plain (payload := nat) ""] blank_lines = Ret [[Plain ""]]
  /\ ~ Forall (Forall (fun c => Spec.text_nonempty c = true))
         [[Plain (payload := nat) ""]].
Proof.
  split; [reflexivity|].
  intros Hall; inversion Hall as [|u us Hu _]; subst.
  inversion Hu as [|c cs Hc _]; subst; discriminate.
Qed.

Lemma digits_scans_ok :
  Spec.scans_ok digits_re [Plain "abc123"; Opaque 7; Plain "123"].
Proof.
  intros t [Ht|[Ht|[Ht|[]]]]; try discriminate; injection Ht as <-; reflexivity.
Qed.

Lemma cleaner_contract_witness :
  (digits <> "" ->
   re_compile digits = Some digits_re
   /\ Spec.scans_ok digits_re [Plain "abc123"; Opaque 7; Plain "123"])
  /\ exists out,
       clean_chain digits [Plain "abc123"; Opaque 7; Plain "123"]
       = Ret (Spec.chain_text [Plain "abc123"; Opaque 7; Plain "123"], out)
       /\ (digits = "" ->
           out = filter Spec.text_nonempty [Plain "abc123"; Opaque 7; Plain "123"])
       /\ (digits = "" ->
           Forall (fun c => Spec.text_nonempty c = true)
                  [Plain "abc123"; Opaque 7; Plain "123"] ->
           out = [Plain "abc123"; Opaque 7; Plain "123"])
       /\ (digits <> "" ->
           out = Spec.cleaned digits_re [Plain "abc123"; Opaque 7; Plain "123"])
       /\ Spec.opaques out = Spec.opaques [Plain "abc123"; Opaque 7; Plain "123"].
Proof.
  split; [intros _; split; [reflexivity | exact digits_scans_ok]|].
  apply (cleaner_contract digits digits_re [Plain "abc123"; Opaque 7; Plain "123"]).
  intros _; split; [reflexivity | exact digits_scans_ok].
Defined.

(** Without a clean pattern a TextItem with the empty text is still
    dropped: the output is not the input. *)
Lemma cleaner_contract_counterexample :
  clean_chain "" [Plain (payload := nat) ""] = Ret ("", [])
  /\ @nil (component nat) <> [Plain ""].
Proof.
  split; [reflexivity | discriminate].
Qed.

(** The first delivery fails: it is logged, the second unit is
    attempted, and no delay is slept in between. *)
Lemma delivery_continues_after_failure_counterexample :
  snd (snd (on_decorating_result defaults (reply hello_world)
              (start (with_history (Some "[]") [0]))))
  = [Log INFO (MsgProcessed 2 false);
     GetCurrConversationId "origin";
     GetConversation "origin" "c1";
     UpdateConversation "origin" "c1"
       (JArr [assistant_record (Spec.chain_text hello_world)]);
     SendMessage "origin" [Plain "Hello"];
     Log ERROR (MsgSendFailed (OtherError "transport"));
     SendMessage "origin" [Plain "World"]]
  /\ forall d, ~ In (Sleep d)
                  (snd (snd (on_decorating_result defaults (reply hello_world)
                               (start (with_history (Some "[]") [0]))))).
Proof.
  assert (Hrun : snd (snd (on_decorating_result defaults (reply hello_world)
                             (start (with_history (Some "[]") [0]))))
                 = [Log INFO (MsgProcessed 2 false);
                    GetCurrConversationId "origin";
                    GetConversation "origin" "c1";
                    UpdateConversation "origin" "c1"
                      (JArr [assistant_record (Spec.chain_text hello_world)]);
                    SendMessage "origin" [Plain "Hello"];
                    Log ERROR (MsgSendFailed (OtherError "transport"));
                    SendMessage "origin" [Plain "World"]])
    by (vm_compute; reflexivity).
  split; [exact Hrun|].
  intros d Hin; rewrite Hrun in Hin; simpl in Hin.
  repeat (destruct Hin as [Hin|Hin]; [discriminate|]); exact Hin.
Qed.

Lemma dispatch_decision_witness :
  result_chain (reply [Plain "abc123"]) = Some [Plain "abc123"]
  /\ [Plain (payload := nat) "abc123"] <> []
  /\ re_compile (get_split_pattern strip_digits) = Some blank_lines_re
  /\ (get_clean_pattern strip_digits <> "" ->
      re_compile (get_clean_pattern strip_digits) = Some digits_re)
  /\ exists cleaned segments,
       clean_chain (get_clean_pattern strip_digits) [Plain "abc123"]
       = Ret (Spec.chain_text [Plain (payload := nat) "abc123"], cleaned)
       /\ split_chain cleaned (get_split_pattern strip_digits) = Ret segments
       /\ (List.length segments <= 1 /\ get_clean_pattern strip_digits = "" ->
           on_decorating_result strip_digits (reply [Plain "abc123"])
             (start (with_history (Some "[]") []))
           = (Ret (reply [Plain "abc123"]), (start (with_history (Some "[]") []))))
       /\ (~ (List.length segments <= 1 /\ get_clean_pattern strip_digits = "") ->
           exists tr1 w1 tr2 w2,
             Spec.capture "origin" (Spec.chain_text [Plain (payload := nat) "abc123"])
               (with_history (Some "[]") []) tr1 w1
             /\ Spec.delivery "origin" (get_delay strip_digits) segments w1 tr2 w2
             /\ Spec.sends tr2 = map (pair "origin") segments
             /\ on_decorating_result strip_digits (reply [Plain "abc123"])
                  (start (with_history (Some "[]") []))
                = (Ret (MkEvent (Some []) "origin" true),
                   (w2, [] ++ Log INFO (MsgProcessed (List.length segments)
                                          (negb (String.eqb
                                                   (get_clean_pattern strip_digits) "")))
                           :: tr1 ++ tr2))).
Proof.
  split; [reflexivity|]; split; [discriminate|]; split; [reflexivity|].
  split; [intros _; reflexivity|].
  apply (dispatch_decision strip_digits (reply [Plain "abc123"])
           (start (with_history (Some "[]") [])) [Plain "abc123"]
           blank_lines_re digits_re);
    [reflexivity | discriminate | reflexivity | intros _; reflexivity].
Defined.



Lemma cleaning_flag_is_configuration_witness :
  result_chain (reply [Plain "abc"]) = Some [Plain "abc"]
  /\ [Plain (payload := nat) "abc"] <> []
  /\ get_clean_pattern strip_digits <> ""
  /\ re_compile (get_clean_pattern strip_digits) = Some digits_re
  /\ re_compile (get_split_pattern strip_digits) = Some blank_lines_re
  /\ exists cleaned segments tr1 w1 tr2 w2,
       clean_chain (get_clean_pattern strip_digits) [Plain "abc"]
       = Ret (Spec.chain_text [Plain (payload := nat) "abc"], cleaned)
       /\ split_chain cleaned (get_split_pattern strip_digits) = Ret segments
       /\ Spec.capture "origin" (Spec.chain_text [Plain (payload := nat) "abc"])
            (with_history None []) tr1 w1
       /\ Spec.delivery "origin" (get_delay strip_digits) segments w1 tr2 w2
       /\ Spec.sends tr2 = map (pair "origin") segments
       /\ on_decorating_result strip_digits (reply [Plain "abc"])
            (start (with_history None []))
          = (Ret (MkEvent (Some []) "origin" true),
             (w2, [] ++ Log INFO (MsgProcessed (List.length segments) true)
                     :: tr1 ++ tr2))
       /\ ((forall t, In (Plain (payload := nat) t) [Plain "abc"] ->
              t <> "" /\ sre_matches digits_re t = []
              /\ sre_matches blank_lines_re t = []) ->
           cleaned = [Plain "abc"] /\ segments = [[Plain "abc"]]).
Proof.
  assert (Hcp : get_clean_pattern strip_digits <> "") by discriminate.
  split; [reflexivity|]; split; [discriminate|]; split; [exact Hcp|].
  split; [reflexivity|]; split; [reflexivity|].
  apply (cleaning_flag_is_configuration strip_digits (reply [Plain "abc"])
           (start (with_history None [])) [Plain "abc"] blank_lines_re digits_re);
    [reflexivity | discriminate | exact Hcp | reflexivity | reflexivity].
Defined.

Lemma malformed_history_overwritten_witness :
  get_curr_conversation_id "origin" (with_history (Some "{oops") [])
  = (Ret (Some "c1"), with_history (Some "{oops") [])
  /\ Str.nonempty "c1" = true
  /\ get_conversation "origin" "c1" (with_history (Some "{oops") [])
     = (Ret (Some (MkConversation (Some "{oops"))), with_history (Some "{oops") [])
  /\ history (MkConversation (Some "{oops")) = Some "{oops"
  /\ Str.nonempty "{oops" = true
  /\ json_loads "{oops" = Raise JSONDecodeError
  /\ exists o w3,
       update_conversation "origin" "c1" (JArr [assistant_record "abc123"])
         (with_history (Some "{oops") []) = (o, w3)
       /\ save_history (reply [Plain "abc123"]) "abc123"
            (start (with_history (Some "{oops") []))
          = (Ret tt,
             (w3, [] ++ [GetCurrConversationId "origin";
                         GetConversation "origin" "c1";
                         UpdateConversation "origin" "c1"
                           (JArr [assistant_record "abc123"])]
                     ++ match o with
                        | Ret _ => []
                        | Raise e => [Log ERROR (MsgHistoryFailed e)]
                        end)).
Proof.
  repeat (split; [reflexivity|]).
  apply (malformed_history_overwritten (P := nat) (H := host)
           (reply [Plain "abc123"]) "abc123"
           (with_history (Some "{oops") []) [] "c1"
           (with_history (Some "{oops") []) (MkConversation (Some "{oops"))
           (with_history (Some "{oops") []) "{oops");
    reflexivity.
Defined.

End Examples.

(** * Further properties of the code *)

(** Rewriting with an equation, whatever name the types of its pairs
    of lists go by. *)
Ltac rewrite_chain H :=
  let HH := fresh "HH" in
  pose proof H as HH; unfold chain in HH |- *; rewrite HH; clear HH.

(** ** [split_chain]: errors, a reply of one text, boundaries *)

Section SegmenterMore.

Context {E : ReEngine} {P : Type}.

Implicit Types (l cur : chain P) (res : list (chain P)) (c : component P).

Lemma split_loop_uncompiled (pat : string) l :
  re_compile pat = None ->
  forall res cur,
    split_loop pat l (res, cur)
    = if Trace.has_text l then Raise ReError else Ret (res, cur ++ l).
Proof.
  intros Hc; induction l as [|[t|p] l IH]; intros res cur; cbn [split_loop].
  - simpl; rewrite app_nil_r; reflexivity.
  - unfold split_step, Re.re_split; rewrite Hc; reflexivity.
  - cbn [split_step bind]; rewrite IH.
    change (Trace.has_text (Opaque p :: l)) with (Trace.has_text l).
    destruct (Trace.has_text l); [reflexivity|].
    rewrite <- app_assoc; reflexivity.
Qed.

Lemma split_chain_of_loop (pat : string) l res cur :
  split_loop pat l ([], []) = Ret (res, cur) ->
  split_chain l pat = Ret (res ++ Spec.close_unit cur).
Proof.
  intros Hl; unfold split_chain; rewrite Hl; simpl.
  destruct cur; simpl; rewrite ?app_nil_r; reflexivity.
Qed.

Lemma split_chain_uncompiled (pat : string) l :
  re_compile pat = None ->
  split_chain l pat
  = if Trace.has_text l then Raise ReError else Ret (Spec.close_unit l).
Proof.
  intros Hc.
  pose proof (split_loop_uncompiled pat l Hc [] []) as Hl.
  destruct (Trace.has_text l).
  - exact (f_equal (fun o => bind o (fun st : list (chain P) * chain P =>
                                       let '(res, cur) := st in
                                       Ret (if nonnil cur then res ++ [cur] else res)))
                   Hl).
  - apply (split_chain_of_loop pat l [] l Hl).
Qed.

Lemma split_chain_raise_inv (pat : string) l (e : exn) :
  split_chain l pat = Raise e ->
  e = ReError /\ re_compile pat = None /\ Trace.has_text l = true.
Proof.
  intros Hr; destruct (re_compile pat) as [r|] eqn:Hc.
  - destruct (split_chain_returns pat r l Hc) as (segments & Hs & _).
    rewrite Hs in Hr; discriminate.
  - rewrite (split_chain_uncompiled pat l Hc) in Hr.
    destruct (Trace.has_text l); [|discriminate].
    injection Hr as <-; repeat split.
Qed.

(** X1: [split_chain] raises exactly when the pattern fails to compile
    and the sequence has a text to split: [parts[0]] and [parts[-1]]
    always exist, and a sequence without text never has its pattern
    compiled. *)
Theorem split_chain_raises_iff_uncompiled (pat : string) l :
  (exists e, split_chain l pat = Raise e)
  <-> re_compile pat = None /\ Trace.has_text l = true.
Proof.
  split.
  - intros (e & Hr); destruct (split_chain_raise_inv pat l e Hr) as (_ & Hc & Ht).
    split; assumption.
  - intros (Hc & Ht); exists ReError.
    rewrite (split_chain_uncompiled pat l Hc), Ht; reflexivity.
Qed.

Lemma close_unit_text_items (p : part) :
  Spec.close_unit (Spec.text_items (P := P) p)
  = map (fun c => [c]) (Spec.text_items p).
Proof. unfold Spec.text_items; destruct (truthy p); reflexivity. Qed.

(** X11: a reply that is one text gives one unit for each non-empty
    part of the text, in order, each unit holding that part alone; when
    nothing matches, the one unit is the text itself. *)
Theorem single_text_units (pat : string) (r : pattern) (t : string) :
  re_compile pat = Some r ->
  split_chain [Plain (payload := P) t] pat
  = Ret (match sre_matches r t with
         | [] => [[Plain t]]
         | _ :: _ => map (fun c => [c])
                         (flat_map Spec.text_items (Re.pattern_split r t))
         end).
Proof.
  intros Hc.
  destruct (parts_cases r t) as [[Hm Hp] | [Hm (first & interior & final & Hp)]].
  - rewrite Hm; apply (split_chain_of_loop pat [Plain t] [] [Plain t]).
    cbn [split_loop]; rewrite_chain (split_step_one (P := P) pat r t [] [] Hc Hp); reflexivity.
  - destruct (sre_matches r t) as [|m ms]; [congruence|].
    rewrite Hp.
    erewrite split_chain_of_loop.
    2:{ cbn [split_loop].
        rewrite_chain (split_step_many (P := P) pat r t [] [] first interior final Hc Hp).
        reflexivity. }
    f_equal; cbn [flat_map app].
    rewrite flat_map_app, !map_app, close_unit_text_items; cbn [flat_map].
    rewrite app_nil_r, close_unit_text_items, <- app_assoc.
    f_equal; f_equal.
    clear; induction interior as [|p ps IH]; simpl; [reflexivity|].
    rewrite map_app, IH, close_unit_text_items; reflexivity.
Qed.

Lemma split_loop_app (pat : string) l1 l2 (st : list (chain P) * chain P) :
  split_loop pat (l1 ++ l2) st
  = bind (split_loop pat l1 st) (split_loop pat l2).
Proof.
  revert st; induction l1 as [|c l1 IH]; intros st; simpl; [reflexivity|].
  destruct (split_step pat st c) as [st'|e]; simpl; [apply IH | reflexivity].
Qed.

(** The units closed before the loop starts are left as they are. *)
Lemma split_loop_frame (pat : string) (r : pattern) l res0 :
  re_compile pat = Some r ->
  forall res cur res' cur',
    split_loop pat l (res, cur) = Ret (res', cur') ->
    split_loop pat l (res0 ++ res, cur) = Ret (res0 ++ res', cur').
Proof.
  intros Hc; induction l as [|[t|p] l IH]; intros res cur res' cur' Hl.
  - injection Hl as <- <-; reflexivity.
  - change (bind (split_step pat (res, cur) (Plain t)) (split_loop pat l)
            = Ret (res', cur')) in Hl.
    change (bind (split_step pat (res0 ++ res, cur) (Plain t)) (split_loop pat l)
            = Ret (res0 ++ res', cur')).
    destruct (parts_cases r t) as [[_ Hp] | [_ (first & interior & final & Hp)]].
    + rewrite (split_step_one pat r t res cur Hc Hp) in Hl.
      rewrite (split_step_one pat r t (res0 ++ res) cur Hc Hp).
      cbn [bind] in *; apply IH; exact Hl.
    + rewrite (split_step_many pat r t res cur first interior final Hc Hp) in Hl.
      rewrite (split_step_many pat r t (res0 ++ res) cur first interior final Hc Hp).
      cbn [bind] in *; rewrite <- app_assoc; apply IH; exact Hl.
  - change (split_loop pat l (res, cur ++ [Opaque p]) = Ret (res', cur')) in Hl.
    change (split_loop pat l (res0 ++ res, cur ++ [Opaque p])
            = Ret (res0 ++ res', cur')).
    apply IH; exact Hl.
Qed.

(** X12: a text whose first and last parts are empty (it starts and
    ends with a separator, or is nothing but separators) is a boundary:
    the units of the sequence are the units of what comes before, the
    units of its interior parts, and the units of what comes after,
    each segmented on its own. *)
Theorem bounded_text_is_boundary (pat : string) (r : pattern) (t : string)
  (first : part) (interior : list part) (final : part) l1 l2
  (units1 units2 : list (chain P)) :
  re_compile pat = Some r ->
  Re.pattern_split r t = first :: interior ++ [final] ->
  truthy first = false -> truthy final = false ->
  split_chain l1 pat = Ret units1 ->
  split_chain l2 pat = Ret units2 ->
  split_chain (l1 ++ Plain t :: l2) pat
  = Ret (units1
         ++ flat_map (fun p => Spec.close_unit (Spec.text_items p)) interior
         ++ units2).
Proof.
  intros Hc Hp Hfirst Hfinal H1 H2.
  destruct (split_loop_spec pat r Hc l1 ([], [])) as ([res1 cur1] & Hl1 & _).
  destruct (split_loop_spec pat r Hc l2 ([], [])) as ([res2 cur2] & Hl2 & _).
  rewrite (split_chain_of_loop pat l1 res1 cur1 Hl1) in H1; injection H1 as <-.
  rewrite (split_chain_of_loop pat l2 res2 cur2 Hl2) in H2; injection H2 as <-.
  erewrite split_chain_of_loop.
  2:{ rewrite split_loop_app, Hl1; cbn [bind split_loop].
      rewrite (split_step_many pat r t res1 cur1 first interior final Hc Hp).
      cbn [bind]; unfold Spec.text_items; rewrite Hfirst, Hfinal, app_nil_r.
      rewrite <- (app_nil_r (res1 ++ _ ++ _)).
      apply (split_loop_frame pat r l2 _ Hc [] [] res2 cur2 Hl2). }
  rewrite <- !app_assoc; reflexivity.
Qed.

End SegmenterMore.

(** ** The cleaner and the handler: errors and what is sent *)

Section HandlerMore.

Context {E : ReEngine} {P : Type} {H : Host P}.

Implicit Types (l cleaned : chain P) (segments : list (chain P))
  (ev : event P) (cfg : config) (s : state) (tr : list (call P)).

Lemma clean_loop_uncompiled (pat : string) l :
  Str.nonempty pat = true -> re_compile pat = None ->
  forall (full : string) (acc : chain P),
    clean_loop pat l (full, acc)
    = if Trace.has_text l then Raise ReError else Ret (full, acc ++ l).
Proof.
  intros Hne Hc; induction l as [|[t|p] l IH]; intros full acc; cbn [clean_loop].
  - simpl; rewrite app_nil_r; reflexivity.
  - unfold clean_step, Re.re_sub; rewrite Hne, Hc; reflexivity.
  - cbn [clean_step bind]; rewrite IH.
    change (Trace.has_text (Opaque p :: l)) with (Trace.has_text l).
    destruct (Trace.has_text l); [reflexivity|].
    rewrite <- app_assoc; reflexivity.
Qed.

Lemma clean_chain_raise_inv (pat : string) l (e : exn) :
  clean_chain pat l = Raise e ->
  e = ReError /\ pat <> "" /\ re_compile pat = None /\ Trace.has_text l = true.
Proof.
  intros Hr; destruct (Str.nonempty pat) eqn:Hne.
  - destruct (re_compile pat) as [r|] eqn:Hc.
    + destruct (clean_chain_returns pat r l (fun _ => Hc)) as (cleaned & Hs & _).
      rewrite Hs in Hr; discriminate.
    + unfold clean_chain in Hr.
      pose proof (clean_loop_uncompiled pat l Hne Hc "" []) as Hl.
      pose proof (eq_trans (eq_sym Hl) Hr) as Heq.
      destruct (Trace.has_text l); [|discriminate].
      injection Heq as <-; repeat split.
      apply StrFacts.nonempty_true; exact Hne.
  - apply StrFacts.nonempty_false in Hne; subst pat.
    pose proof (eq_trans (eq_sym (clean_loop_disabled l "" [])) Hr); discriminate.
Qed.

(** X2: the cleaner raises exactly when a clean pattern is configured,
    fails to compile, and the sequence has a text to clean; without a
    clean pattern, or on a sequence without text, nothing is compiled
    and the cleaner returns. *)
Theorem clean_chain_raises_iff_uncompiled (pat : string) l :
  (exists e, clean_chain pat l = Raise e)
  <-> pat <> "" /\ re_compile pat = None /\ Trace.has_text l = true.
Proof.
  split.
  - intros (e & Hr).
    destruct (clean_chain_raise_inv pat l e Hr) as (_ & Hne & Hc & Ht).
    repeat split; assumption.
  - intros (Hne & Hc & Ht); exists ReError.
    apply StrFacts.nonempty_true in Hne.
    pose proof (clean_loop_uncompiled pat l Hne Hc "" []) as Hl.
    rewrite Ht in Hl; exact Hl.
Qed.

Lemma clean_loop_nonempty_out (pat : string) l :
  forall (full0 : string) (acc : chain P) (full : string) cleaned,
    clean_loop pat l (full0, acc) = Ret (full, cleaned) ->
    Forall (fun c => Spec.text_nonempty c = true) acc ->
    Forall (fun c => Spec.text_nonempty c = true) cleaned.
Proof.
  induction l as [|[t|p] l IH]; intros full0 acc full cleaned Hrun Hacc;
    simpl in Hrun.
  - injection Hrun as _ <-; exact Hacc.
  - destruct (if Str.nonempty pat then Re.re_sub pat t else Ret t) as [t'|e];
      simpl in Hrun; [|discriminate].
    apply IH in Hrun; [exact Hrun|].
    destruct (Str.nonempty t') eqn:Ht'; [|exact Hacc].
    apply Forall_app; split; [exact Hacc | repeat constructor; exact Ht'].
  - apply IH in Hrun; [exact Hrun|].
    apply Forall_app; split; [exact Hacc | repeat constructor].
Qed.

Lemma clean_loop_text_free (pat : string) l :
  Trace.has_text l = false ->
  forall (full : string) (acc : chain P),
    clean_loop pat l (full, acc) = Ret (full, acc ++ l).
Proof.
  induction l as [|[t|p] l IH]; intros Ht full acc; [| discriminate |].
  - simpl; rewrite app_nil_r; reflexivity.
  - cbn [clean_loop clean_step bind]; rewrite IH by exact Ht.
    rewrite <- app_assoc; reflexivity.
Qed.

Lemma split_loop_text_free (pat : string) l :
  Trace.has_text l = false ->
  forall (res : list (chain P)) (cur : chain P),
    split_loop pat l (res, cur) = Ret (res, cur ++ l).
Proof.
  induction l as [|[t|p] l IH]; intros Ht res cur; [| discriminate |].
  - simpl; rewrite app_nil_r; reflexivity.
  - cbn [split_loop split_step bind]; rewrite IH by exact Ht.
    rewrite <- app_assoc; reflexivity.
Qed.

(** The units of a sequence without empty text, whether or not the
    pattern compiles. *)
Lemma split_chain_units_ok (pat : string) l segments :
  split_chain l pat = Ret segments ->
  Forall (fun c => Spec.text_nonempty c = true) l ->
  Forall (fun u => u <> []) segments
  /\ Forall (Forall (fun c => Spec.text_nonempty c = true)) segments.
Proof.
  intros Hs Hl; destruct (re_compile pat) as [r|] eqn:Hc.
  - destruct (split_chain_spec pat r l Hc) as (res & cur & Hrun & Hall).
    rewrite Hrun in Hs; injection Hs as <-.
    destruct (accumulate_all_text_nonempty _ _ l _ Hall Hl
                (Forall_nil _) (Forall_nil _)) as [Hres Hcur].
    split; apply Forall_app; split;
      [ apply (accumulate_all_nonnil _ _ l _ Hall); constructor
      | apply close_unit_nonnil_all
      | exact Hres
      | apply close_unit_all; exact Hcur ].
  - rewrite (split_chain_uncompiled pat l Hc) in Hs.
    destruct (Trace.has_text l); [discriminate|]; injection Hs as <-.
    split; [apply close_unit_nonnil_all | apply close_unit_all; exact Hl].
Qed.

Lemma handler_without_content cfg ev s :
  result_chain ev = None \/ result_chain ev = Some [] ->
  on_decorating_result cfg ev s = (Ret ev, s).
Proof.
  intros [Hres|Hres]; unfold on_decorating_result; rewrite Hres; reflexivity.
Qed.

Lemma handler_clean_raises cfg ev s l (e : exn) :
  result_chain ev = Some l -> l <> [] ->
  clean_chain (get_clean_pattern cfg) l = Raise e ->
  on_decorating_result cfg ev s = (Raise e, s).
Proof.
  intros Hres Hl Hclean.
  unfold on_decorating_result; rewrite Hres.
  destruct l as [|c l]; [congruence|]; cbn [nonnil negb].
  unfold mbind at 1, lift at 1; rewrite Hclean; reflexivity.
Qed.

Lemma handler_split_raises cfg ev s l (full : string) cleaned (e : exn) :
  result_chain ev = Some l -> l <> [] ->
  clean_chain (get_clean_pattern cfg) l = Ret (full, cleaned) ->
  split_chain cleaned (get_split_pattern cfg) = Raise e ->
  on_decorating_result cfg ev s = (Raise e, s).
Proof.
  intros Hres Hl Hclean Hsplit.
  unfold on_decorating_result; rewrite Hres.
  destruct l as [|c l]; [congruence|]; cbn [nonnil negb].
  unfold mbind at 1, lift at 1; rewrite Hclean.
  unfold mbind at 1, lift at 1; rewrite Hsplit; reflexivity.
Qed.

Lemma handler_cases cfg ev s : Run.handler_case cfg ev s.
Proof.
  destruct (result_chain ev) as [l|] eqn:Hres.
  2:{ apply Run.case_untouched, handler_without_content; left; exact Hres. }
  destruct l as [|c0 l0] eqn:El.
  { apply Run.case_untouched, handler_without_content; right; exact Hres. }
  rewrite <- El in *; assert (Hl : l <> []) by (rewrite El; discriminate).
  clear El c0 l0.
  destruct (clean_chain (get_clean_pattern cfg) l) as [[full cleaned]|e] eqn:Hclean.
  2:{ destruct (clean_chain_raise_inv _ _ _ Hclean) as (-> & _ & Hc & _).
      apply Run.case_pattern_error; [|left; exact Hc].
      apply (handler_clean_raises cfg ev s l ReError Hres Hl Hclean). }
  assert (Hfull : full = Spec.chain_text l)
    by exact (clean_loop_full_text _ l "" [] full cleaned Hclean).
  subst full.
  assert (Hne : Forall (fun c => Spec.text_nonempty c = true) cleaned)
    by exact (clean_loop_nonempty_out _ l "" [] _ cleaned Hclean (Forall_nil _)).
  destruct (split_chain cleaned (get_split_pattern cfg)) as [segments|e] eqn:Hsplit.
  2:{ destruct (split_chain_raise_inv _ _ _ Hsplit) as (-> & Hc & _).
      apply Run.case_pattern_error; [|right; exact Hc].
      apply (handler_split_raises cfg ev s l _ cleaned ReError Hres Hl Hclean Hsplit). }
  destruct (split_chain_units_ok _ cleaned segments Hsplit Hne) as [Hnn Htn].
  destruct (Nat.leb (List.length segments) 1) eqn:Hlen;
    [destruct (String.eqb (get_clean_pattern cfg) "") eqn:Hcp|].
  - apply Run.case_untouched.
    apply (handler_noop cfg ev s l (Spec.chain_text l) cleaned segments);
      try assumption; [apply Nat.leb_le | apply String.eqb_eq]; assumption.
  - destruct (handler_takeover cfg ev s l (Spec.chain_text l) cleaned segments
                Hres Hl Hclean Hsplit)
      as (tr1 & w1 & tr2 & w2 & _ & Hcap & Hdel & Hrun).
    { intros [_ Hx]; apply String.eqb_eq in Hx; congruence. }
    rewrite Hcp in Hrun.
    eapply Run.case_taken_over; try eassumption. rewrite Hcp; exact Hrun.
  - destruct (handler_takeover cfg ev s l (Spec.chain_text l) cleaned segments
                Hres Hl Hclean Hsplit)
      as (tr1 & w1 & tr2 & w2 & _ & Hcap & Hdel & Hrun).
    { intros [Hx _]; apply Nat.leb_le in Hx; congruence. }
    eapply Run.case_taken_over; eassumption.
Qed.

End HandlerMore.

Section HandlerExtras.

Context {E : ReEngine} {P : Type} {H : Host P}.

Implicit Types (l cleaned : chain P) (segments : list (chain P))
  (ev : event P) (cfg : config) (s : state) (tr : list (call P)).

Lemma sends_app tr tr' :
  Spec.sends (tr ++ tr') = Spec.sends tr ++ Spec.sends tr'.
Proof.
  induction tr as [|c tr IH]; simpl; [reflexivity|].
  destruct c; simpl; rewrite ?IH; reflexivity.
Qed.

Lemma capture_no_transport (umo content : string) (w : world) tr (w' : world) :
  Spec.capture umo content w tr w' ->
  Forall (fun c => Trace.is_transport_call c = false) tr.
Proof. intros Hc; inversion Hc; subst; repeat constructor. Qed.

Lemma delivery_no_store (umo : string) (delay : Q) segments
  (w : world) tr (w' : world) :
  Spec.delivery umo delay segments w tr w' ->
  Forall (fun c => Trace.is_store_call c = false) tr.
Proof. induction 1; repeat constructor; assumption. Qed.

(** X3: an exception of class [Exception] leaves the handler only
    when a configured pattern failed to compile, and then nothing has
    been done: no call to the transport, the store or the logger, the
    world as it was.  Past the dispatch, the failures of the store and
    of the transport are caught and logged. *)
Theorem handler_raises_before_acting cfg ev s (e : exn) (s' : state) :
  on_decorating_result cfg ev s = (Raise e, s') ->
  s' = s
  /\ (re_compile (get_clean_pattern cfg) = None
      \/ re_compile (get_split_pattern cfg) = None).
Proof.
  intros Hrun.
  destruct (handler_cases cfg ev s) as [Hr | Hr Hc | ? ? ? ? ? ? ? ? ? ? ? ? ? ? ? Hr];
    rewrite Hr in Hrun; try discriminate.
  injection Hrun as _ <-; split; [reflexivity | exact Hc].
Qed.

(** X14: when the handler returns, the reply is either left exactly as
    it was, with nothing done, or emptied and the event stopped; the
    cleaned text is never written back into the reply. *)
Theorem reply_untouched_or_emptied cfg ev s (ev' : event P) (s' : state) :
  on_decorating_result cfg ev s = (Ret ev', s') ->
  (ev' = ev /\ s' = s)
  \/ (ev' = MkEvent (Some []) (unified_msg_origin ev) true
      /\ exists l, result_chain ev = Some l /\ l <> []).
Proof.
  intros Hrun.
  destruct (handler_cases cfg ev s)
    as [Hr | Hr Hc | l ? ? ? ? ? ? Hres Hl ? ? ? ? ? ? Hr];
    rewrite Hr in Hrun; try discriminate.
  - injection Hrun as <- <-; left; split; reflexivity.
  - injection Hrun as <- _; right; split; [reflexivity|].
    exists l; split; assumption.
Qed.

(** X5: the handler only adds calls to the trace, and every message it
    hands to the transport is addressed to the event's origin, is not
    empty, and holds no text component with the empty string. *)
Theorem sent_messages_have_content cfg ev s :
  exists tr,
    snd (snd (on_decorating_result cfg ev s)) = snd s ++ tr
    /\ Forall (fun m : string * chain P =>
                 fst m = unified_msg_origin ev
                 /\ snd m <> []
                 /\ Forall (fun c => Spec.text_nonempty c = true) (snd m))
              (Spec.sends tr).
Proof.
  destruct (handler_cases cfg ev s)
    as [Hr | Hr Hc | l cleaned segments tr1 w1 tr2 w2 _ _ _ _ Hnn Htn Hcap Hdel Hr];
    rewrite Hr; cbn [fst snd].
  1,2: exists []; rewrite app_nil_r; split; [reflexivity | constructor].
  eexists; split; [reflexivity|].
  cbn [Spec.sends]; rewrite sends_app.
  destruct (capture_trace _ _ _ _ _ Hcap) as (-> & _).
  destruct (delivery_sends _ _ _ _ _ _ Hdel) as (-> & _).
  rewrite (filter_nonnil_all segments Hnn); cbn [app].
  apply Forall_forall; intros [umo u] Hin.
  apply in_map_iff in Hin; destruct Hin as (u' & Heq & Hin).
  injection Heq as <- <-; cbn [fst snd].
  rewrite Forall_forall in Hnn, Htn.
  split; [reflexivity|]; split; [apply Hnn | apply Htn]; exact Hin.
Qed.

(** X13: in every run the calls to the conversation store come before
    the calls to the transport: the history is captured before the first
    message is sent, and the store is not touched afterwards. *)
Theorem history_precedes_delivery cfg ev s :
  exists pre post,
    snd (snd (on_decorating_result cfg ev s)) = snd s ++ pre ++ post
    /\ Forall (fun c => Trace.is_transport_call c = false) pre
    /\ Forall (fun c => Trace.is_store_call c = false) post.
Proof.
  destruct (handler_cases cfg ev s)
    as [Hr | Hr Hc | l cleaned segments tr1 w1 tr2 w2 _ _ _ _ _ _ Hcap Hdel Hr];
    rewrite Hr; cbn [fst snd].
  1,2: exists [], []; rewrite app_nil_r; repeat split; constructor.
  exists (Log INFO (MsgProcessed (List.length segments)
                      (negb (String.eqb (get_clean_pattern cfg) ""))) :: tr1), tr2.
  split; [reflexivity|]; split.
  - constructor; [reflexivity | exact (capture_no_transport _ _ _ _ _ Hcap)].
  - exact (delivery_no_store _ _ _ _ _ _ Hdel).
Qed.

(** X4: a reply with content but no text component never has a pattern
    compiled, so that it is handled the same whether or not the patterns
    compile: left alone without a clean pattern; with one, sent again as
    one unit, and the history captured with the empty string as
    content. *)
Theorem text_free_reply cfg ev s l :
  result_chain ev = Some l -> l <> [] -> Trace.has_text l = false ->
  (get_clean_pattern cfg = "" -> on_decorating_result cfg ev s = (Ret ev, s))
  /\ (get_clean_pattern cfg <> "" ->
      exists tr1 w1 tr2 w2,
        Spec.capture (unified_msg_origin ev) "" (fst s) tr1 w1
        /\ Spec.delivery (unified_msg_origin ev) (get_delay cfg) [l] w1 tr2 w2
        /\ on_decorating_result cfg ev s
           = (Ret (MkEvent (Some []) (unified_msg_origin ev) true),
              (w2, snd s ++ Log INFO (MsgProcessed 1 true) :: tr1 ++ tr2))).
Proof.
  intros Hres Hl Ht.
  assert (Hclean : clean_chain (get_clean_pattern cfg) l = Ret ("", l))
    by exact (clean_loop_text_free (get_clean_pattern cfg) l Ht "" []).
  assert (Hsplit : split_chain l (get_split_pattern cfg) = Ret [l]).
  { rewrite (split_chain_of_loop (get_split_pattern cfg) l [] l
               (split_loop_text_free _ l Ht [] [])).
    destruct l; [congruence | reflexivity]. }
  split.
  - intros Hcp.
    apply (handler_noop cfg ev s l "" l [l] Hres Hl Hclean Hsplit);
      [simpl; lia | exact Hcp].
  - intros Hcp.
    destruct (handler_takeover cfg ev s l "" l [l] Hres Hl Hclean Hsplit)
      as (tr1 & w1 & tr2 & w2 & _ & Hcap & Hdel & Hrun); [tauto|].
    exists tr1, w1, tr2, w2; split; [exact Hcap|]; split; [exact Hdel|].
    rewrite Hrun; apply String.eqb_neq in Hcp; rewrite Hcp; reflexivity.
Qed.

(** X6: without a clean pattern, a reply in whose texts the split
    pattern matches nowhere is left alone: the handler returns the event
    as it was and makes no call. *)
Theorem unmatched_reply_left_alone cfg ev s l (rs : pattern) :
  result_chain ev = Some l ->
  get_clean_pattern cfg = "" ->
  re_compile (get_split_pattern cfg) = Some rs ->
  (forall t, In (Plain t) l -> sre_matches rs t = []) ->
  on_decorating_result cfg ev s = (Ret ev, s).
Proof.
  intros Hres Hcp Hrs Hnone.
  destruct l as [|c0 l0] eqn:El;
    [apply handler_without_content; right; exact Hres|].
  rewrite <- El in *; assert (Hl : l <> []) by (rewrite El; discriminate).
  clear El c0 l0.
  assert (Hclean : clean_chain (get_clean_pattern cfg) l
                   = Ret (Spec.chain_text l, filter Spec.text_nonempty l)).
  { rewrite Hcp; exact (clean_loop_disabled l "" []). }
  assert (Hloop : split_loop (get_split_pattern cfg) (filter Spec.text_nonempty l)
                    ([], [])
                  = Ret ([], filter Spec.text_nonempty l)).
  { assert (Hnone' : forall t, In (Plain t) (filter Spec.text_nonempty l) ->
                                sre_matches rs t = [])
      by (intros t Hin; apply Hnone; apply filter_In in Hin; tauto).
    exact (split_loop_no_match (get_split_pattern cfg) rs _ Hrs Hnone' [] []). }
  apply (handler_noop cfg ev s l _ _ _ Hres Hl Hclean
           (split_chain_of_loop _ _ _ _ Hloop)); [|exact Hcp].
  destruct (filter Spec.text_nonempty l); simpl; lia.
Qed.

End HandlerExtras.

(** ** The delivery loop and [save_history]: pacing and safety *)

Section CollaboratorExtras.

Context {P : Type} {H : Host P}.

Implicit Types (segments : list (chain P)) (ev : event P) (s : state)
  (tr : list (call P)) (w : world).

Lemma delivery_calls (umo : string) (delay : Q) segments w tr w' :
  Spec.delivery umo delay segments w tr w' ->
  Forall (fun u => u <> []) segments ->
  (segments <> [] -> tr <> [])
  /\ Forall (fun d => d = delay) (Trace.sleeps tr)
  /\ List.length (Trace.sleeps tr) <= List.length segments - 1
  /\ List.length (Trace.sleeps tr) + List.length (Spec.logs ERROR tr)
     <= List.length segments
  /\ (Spec.logs ERROR tr = [] -> tr = Trace.paced umo delay segments).
Proof.
  induction 1 as [w | l w tr w' Hd IH | u w w1 Hu Hs
                  | u l w w1 tr w' Hu Hl Hs Hd IH
                  | u l w e w1 tr w' Hu Hs Hd IH]; intros Hnn.
  - simpl; repeat split; auto; congruence.
  - inversion Hnn; congruence.
  - simpl; repeat split; auto; discriminate.
  - inversion Hnn as [|? ? _ Hnn']; subst.
    destruct (IH Hnn') as (_ & Hall & Hle & Hsum & Hp).
    destruct l as [|u' l']; [congruence|]; simpl in *.
    repeat split; try discriminate; try lia.
    + constructor; [reflexivity | exact Hall].
    + intros Herr; rewrite (Hp Herr); reflexivity.
  - inversion Hnn as [|? ? _ Hnn']; subst.
    destruct (IH Hnn') as (_ & Hall & Hle & Hsum & _).
    simpl in *; repeat split; try discriminate; try lia; exact Hall.
Qed.

Lemma delivery_never_ends_asleep (umo : string) (delay : Q) segments w tr w' :
  Spec.delivery umo delay segments w tr w' ->
  Forall (fun u => u <> []) segments ->
  forall tr0 c, tr = tr0 ++ [c] -> Trace.is_sleep c = false.
Proof.
  induction 1 as [w | l w tr w' Hd IH | u w w1 Hu Hs
                  | u l w w1 tr w' Hu Hl Hs Hd IH
                  | u l w e w1 tr w' Hu Hs Hd IH]; intros Hnn tr0 c Heq.
  - destruct tr0; discriminate.
  - inversion Hnn; congruence.
  - destruct tr0 as [|c0 [|c1 tr0]]; try discriminate.
    injection Heq as <-; reflexivity.
  - inversion Hnn as [|? ? _ Hnn']; subst.
    destruct (delivery_calls _ _ _ _ _ _ Hd Hnn') as (Hne & _).
    specialize (Hne Hl).
    destruct (exists_last Hne) as (tr1 & c1 & ->).
    change (SendMessage umo u :: Sleep delay :: tr1 ++ [c1])
      with ((SendMessage umo u :: Sleep delay :: tr1) ++ [c1]) in Heq.
    apply app_inj_tail in Heq; destruct Heq as [_ <-].
    apply (IH Hnn' tr1 c1 eq_refl).
  - inversion Hnn as [|? ? _ Hnn']; subst.
    destruct tr as [|c' tr'].
    + destruct tr0 as [|c0 [|c1 [|c2 tr0]]]; try discriminate.
      injection Heq as _ <-; reflexivity.
    + assert (Hne : c' :: tr' <> []) by discriminate.
      destruct (exists_last Hne) as (tr1 & c1 & Ec).
      rewrite Ec in Heq, IH.
      change (SendMessage umo u :: Log ERROR (MsgSendFailed e) :: tr1 ++ [c1])
        with ((SendMessage umo u :: Log ERROR (MsgSendFailed e) :: tr1) ++ [c1])
        in Heq.
      apply app_inj_tail in Heq; destruct Heq as [_ <-].
      apply (IH Hnn' tr1 c1 eq_refl).
Qed.

Lemma paced_no_error (umo : string) (delay : Q) segments :
  Spec.logs ERROR (Trace.paced umo delay segments) = [].
Proof.
  induction segments as [|u [|u' l] IH]; simpl in *; auto.
Qed.

(** X7: in the delivery of units that are not empty, every sleep is of
    the configured delay, there are at most [n - 1] sleeps for [n]
    units, sleeps and logged failures together are at most [n], and the
    loop never ends on a sleep. *)
Theorem delays_between_units (umo : string) (delay : Q) segments s :
  Forall (fun u => u <> []) segments ->
  exists tr w',
    send_segments umo delay (List.length segments) 0 segments s
    = (Ret tt, (w', snd s ++ tr))
    /\ Forall (fun d => d = delay) (Trace.sleeps tr)
    /\ List.length (Trace.sleeps tr) <= List.length segments - 1
    /\ List.length (Trace.sleeps tr) + List.length (Spec.logs ERROR tr)
       <= List.length segments
    /\ forall tr0 c, tr = tr0 ++ [c] -> Trace.is_sleep c = false.
Proof.
  intros Hnn.
  destruct (send_segments_delivery umo delay segments 0 s) as (tr & w' & Hrun & Hd).
  exists tr, w'; split; [exact Hrun|].
  destruct (delivery_calls _ _ _ _ _ _ Hd Hnn) as (_ & Hall & Hle & Hsum & _).
  repeat split; try assumption.
  exact (delivery_never_ends_asleep _ _ _ _ _ _ Hd Hnn).
Qed.

(** X8: the delivery of units that are not empty logs no failure
    exactly when its calls are send, sleep, send, ..., send: one send
    for each unit in order, one sleep of the configured delay between
    two of them, none after the last. *)
Theorem unfailing_delivery_is_paced (umo : string) (delay : Q) segments s :
  Forall (fun u => u <> []) segments ->
  exists tr w',
    send_segments umo delay (List.length segments) 0 segments s
    = (Ret tt, (w', snd s ++ tr))
    /\ (Spec.logs ERROR tr = [] <-> tr = Trace.paced umo delay segments).
Proof.
  intros Hnn.
  destruct (send_segments_delivery umo delay segments 0 s) as (tr & w' & Hrun & Hd).
  exists tr, w'; split; [exact Hrun|].
  destruct (delivery_calls _ _ _ _ _ _ Hd Hnn) as (_ & _ & _ & _ & Hp).
  split; [exact Hp | intros ->; apply paced_no_error].
Qed.

(** X9: [save_history] lets no exception of class [Exception] out:
    whichever the store or [json.loads] raise, it returns; it never
    calls the transport, logs nothing but errors, and writes to the
    store at most once, a list that ends with the assistant record of
    the content. *)
Theorem save_history_contains_exceptions ev (content : string) s :
  exists tr w',
    save_history ev content s = (Ret tt, (w', snd s ++ tr))
    /\ Forall (fun c => Trace.is_transport_call c = false) tr
    /\ Spec.logs INFO tr = [] /\ Spec.logs WARNING tr = []
    /\ (Spec.updates tr = []
        \/ exists items,
             Spec.updates tr = [JArr (items ++ [assistant_record content])]).
Proof.
  destruct (save_history_capture ev content s) as (tr & w' & Hrun & Hcap).
  exists tr, w'; split; [exact Hrun|].
  destruct (capture_trace _ _ _ _ _ Hcap) as (_ & Hwarn & Hupd).
  split; [exact (capture_no_transport _ _ _ _ _ Hcap)|].
  split; [inversion Hcap; reflexivity|].
  split; assumption.
Qed.

(** X10: a stored history that is JSON but not a list (an object, a
    number, a string) is left as it is: [append] fails, the failure is
    logged as an error, and the store is not asked to write. *)
Theorem non_list_history_is_kept ev (content : string) w tr (cid : string)
  w1 (conv : conversation) w2 (h : string) (v : json) :
  get_curr_conversation_id (unified_msg_origin ev) w = (Ret (Some cid), w1) ->
  Str.nonempty cid = true ->
  get_conversation (unified_msg_origin ev) cid w1 = (Ret (Some conv), w2) ->
  history conv = Some h ->
  Str.nonempty h = true ->
  json_loads h = Ret v ->
  (forall items, v <> JArr items) ->
  save_history ev content (w, tr)
  = (Ret tt, (w2, tr ++ [GetCurrConversationId (unified_msg_origin ev);
                         GetConversation (unified_msg_origin ev) cid;
                         Log ERROR (MsgHistoryFailed AttributeError)])).
Proof.
  intros Hcid Hne Hconv Hh Hhne Hjson Hv.
  apply (save_history_unreadable ev content w tr cid w1 conv w2 AttributeError);
    try assumption.
  unfold load_history, parse_history; rewrite Hh, Hhne, Hjson; simpl.
  destruct v; try reflexivity.
  exfalso; eapply Hv; reflexivity.
Qed.

End CollaboratorExtras.

(** ** The further properties on concrete replies *)

Section MoreExamples.

#[local] Existing Instance MiniRe.engine.
#[local] Existing Instance Fixture.host.

Import Fixture Cases.

Example unclosed_does_not_compile : re_compile unclosed = None.
Proof. reflexivity. Qed.

Example images_apart_units :
  split_chain images_apart blank_lines = Ret [[Opaque 1]; [Opaque 2]].
Proof. reflexivity. Qed.

Lemma handler_raises_before_acting_witness :
  on_decorating_result broken_clean (reply [Plain "123"]) (start store_down)
  = (Raise ReError, start store_down)
  /\ start store_down = start store_down
  /\ (re_compile (get_clean_pattern broken_clean) = None
      \/ re_compile (get_split_pattern broken_clean) = None).
Proof.
  split; [reflexivity|].
  apply (handler_raises_before_acting broken_clean (reply [Plain "123"])
           (start store_down) ReError (start store_down)).
  reflexivity.
Defined.

Lemma reply_untouched_or_emptied_witness :
  exists s',
    on_decorating_result defaults (reply hello_world) (start no_conversation)
    = (Ret (MkEvent (P := nat) (Some []) "origin" true), s')
    /\ ((MkEvent (P := nat) (Some []) "origin" true = reply hello_world
         /\ s' = start no_conversation)
        \/ (MkEvent (P := nat) (Some []) "origin" true
            = MkEvent (Some []) (unified_msg_origin (reply hello_world)) true
            /\ exists l, result_chain (reply hello_world) = Some l /\ l <> [])).
Proof.
  exists (snd (on_decorating_result defaults (reply hello_world)
                 (start no_conversation))).
  split; [reflexivity|].
  apply (reply_untouched_or_emptied defaults (reply hello_world)
           (start no_conversation)).
  reflexivity.
Defined.

Lemma text_free_reply_witness :
  result_chain (reply image_only) = Some image_only
  /\ image_only <> []
  /\ Trace.has_text image_only = false
  /\ (get_clean_pattern broken_patterns = "" ->
      on_decorating_result broken_patterns (reply image_only)
        (start (with_history None []))
      = (Ret (reply image_only), start (with_history None [])))
  /\ (get_clean_pattern broken_patterns <> "" ->
      exists tr1 w1 tr2 w2,
        Spec.capture "origin" "" (with_history None []) tr1 w1
        /\ Spec.delivery "origin" (get_delay broken_patterns) [image_only] w1 tr2 w2
        /\ on_decorating_result broken_patterns (reply image_only)
             (start (with_history None []))
           = (Ret (MkEvent (Some []) "origin" true),
              (w2, [] ++ Log INFO (MsgProcessed 1 true) :: tr1 ++ tr2))).
Proof.
  split; [reflexivity|]; split; [discriminate|]; split; [reflexivity|].
  apply (text_free_reply broken_patterns (reply image_only)
           (start (with_history None [])) image_only);
    [reflexivity | discriminate | reflexivity].
Defined.

Lemma unmatched_reply_left_alone_witness :
  result_chain (reply [Plain "Hello"; Opaque 7]) = Some [Plain "Hello"; Opaque 7]
  /\ get_clean_pattern defaults = ""
  /\ re_compile (get_split_pattern defaults) = Some blank_lines_re
  /\ (forall t, In (Plain (payload := nat) t) [Plain "Hello"; Opaque 7] ->
        sre_matches blank_lines_re t = [])
  /\ on_decorating_result defaults (reply [Plain "Hello"; Opaque 7])
       (start (with_history None []))
     = (Ret (reply [Plain "Hello"; Opaque 7]), start (with_history None [])).
Proof.
  assert (Hnone : forall t, In (Plain (payload := nat) t) [Plain "Hello"; Opaque 7] ->
                            sre_matches blank_lines_re t = []).
  { intros t [Ht|[Ht|[]]]; try discriminate; injection Ht as <-; reflexivity. }
  split; [reflexivity|]; split; [reflexivity|]; split; [reflexivity|].
  split; [exact Hnone|].
  exact (unmatched_reply_left_alone defaults (reply [Plain "Hello"; Opaque 7])
           (start (with_history None [])) [Plain "Hello"; Opaque 7] blank_lines_re
           eq_refl eq_refl eq_refl Hnone).
Defined.

Lemma two_units_not_empty :
  Forall (fun u : chain nat => u <> []) [[Plain "Hello"]; [Plain "World"]].
Proof. repeat constructor; discriminate. Qed.

Lemma delays_between_units_witness :
  Forall (fun u : chain nat => u <> []) [[Plain "Hello"]; [Plain "World"]]
  /\ exists tr w',
       send_segments "origin" 1%Q
         (List.length [[Plain (payload := nat) "Hello"]; [Plain "World"]]) 0
         [[Plain "Hello"]; [Plain "World"]] (start (with_history None [0]))
       = (Ret tt, (w', [] ++ tr))
       /\ Forall (fun d => d = 1%Q) (Trace.sleeps tr)
       /\ List.length (Trace.sleeps tr)
          <= List.length [[Plain (payload := nat) "Hello"]; [Plain "World"]] - 1
       /\ List.length (Trace.sleeps tr) + List.length (Spec.logs ERROR tr)
          <= List.length [[Plain (payload := nat) "Hello"]; [Plain "World"]]
       /\ forall tr0 c, tr = tr0 ++ [c] -> Trace.is_sleep c = false.
Proof.
  split; [exact two_units_not_empty|].
  exact (delays_between_units "origin" 1%Q [[Plain "Hello"]; [Plain "World"]]
           (start (with_history None [0])) two_units_not_empty).
Defined.

Lemma unfailing_delivery_is_paced_witness :
  Forall (fun u : chain nat => u <> []) [[Plain "Hello"]; [Plain "World"]]
  /\ exists tr w',
       send_segments "origin" 1%Q
         (List.length [[Plain (payload := nat) "Hello"]; [Plain "World"]]) 0
         [[Plain "Hello"]; [Plain "World"]] (start (with_history None []))
       = (Ret tt, (w', [] ++ tr))
       /\ (Spec.logs ERROR tr = []
           <-> tr = Trace.paced "origin" 1%Q [[Plain "Hello"]; [Plain "World"]]).
Proof.
  split; [exact two_units_not_empty|].
  exact (unfailing_delivery_is_paced "origin" 1%Q [[Plain "Hello"]; [Plain "World"]]
           (start (with_history None [])) two_units_not_empty).
Defined.

Example paced_delivery :
  snd (snd (send_segments "origin" 1%Q 2 0 [[Plain "Hello"]; [Plain "World"]]
              (start (with_history None []))))
  = Trace.paced "origin" 1%Q [[Plain "Hello"]; [Plain "World"]].
Proof. reflexivity. Qed.

Lemma non_list_history_is_kept_witness :
  get_curr_conversation_id "origin" (with_history (Some "{}") [])
  = (Ret (Some "c1"), with_history (Some "{}") [])
  /\ Str.nonempty "c1" = true
  /\ get_conversation "origin" "c1" (with_history (Some "{}") [])
     = (Ret (Some (MkConversation (Some "{}"))), with_history (Some "{}") [])
  /\ history (MkConversation (Some "{}")) = Some "{}"
  /\ Str.nonempty "{}" = true
  /\ json_loads "{}" = Ret (JObj [])
  /\ (forall items, JObj [] <> JArr items)
  /\ save_history (reply [Plain "abc"]) "abc" (start (with_history (Some "{}") []))
     = (Ret tt,
        (with_history (Some "{}") [],
         [] ++ [GetCurrConversationId "origin";
                GetConversation "origin" "c1";
                Log ERROR (MsgHistoryFailed AttributeError)])).
Proof.
  repeat (split; [reflexivity|]).
  split; [discriminate|].
  apply (non_list_history_is_kept (P := nat) (H := host)
           (reply [Plain "abc"]) "abc" (with_history (Some "{}") []) [] "c1"
           (with_history (Some "{}") []) (MkConversation (Some "{}"))
           (with_history (Some "{}") []) "{}" (JObj []));
    try reflexivity; discriminate.
Defined.

Lemma single_text_units_witness :
  re_compile blank_lines = Some blank_lines_re
  /\ split_chain hello_world blank_lines
     = Ret (match sre_matches blank_lines_re
                  ("Hello" ++ newline ++ newline ++ "World")%string with
            | [] => [hello_world]
            | _ :: _ =>
                map (fun c => [c])
                    (flat_map Spec.text_items
                       (Re.pattern_split blank_lines_re
                          ("Hello" ++ newline ++ newline ++ "World")%string))
            end).
Proof.
  split; [reflexivity|].
  exact (single_text_units (P := nat) blank_lines blank_lines_re
           ("Hello" ++ newline ++ newline ++ "World")%string eq_refl).
Defined.

Lemma bounded_text_is_boundary_witness :
  re_compile blank_lines = Some blank_lines_re
  /\ Re.pattern_split blank_lines_re (newline ++ newline)%string
     = Some "" :: [] ++ [Some ""]
  /\ truthy (Some "") = false
  /\ split_chain [Opaque 1] blank_lines = Ret [[Opaque 1]]
  /\ split_chain [Opaque 2] blank_lines = Ret [[Opaque 2]]
  /\ split_chain ([Opaque 1] ++ Plain (newline ++ newline)%string :: [Opaque 2])
       blank_lines
     = Ret ([[Opaque 1]]
            ++ flat_map (fun p => Spec.close_unit (Spec.text_items p)) []
            ++ [[Opaque 2]]).
Proof.
  repeat (split; [reflexivity|]).
  exact (bounded_text_is_boundary (P := nat) blank_lines blank_lines_re
           (newline ++ newline)%string (Some "") [] (Some "")
           [Opaque 1] [Opaque 2] [[Opaque 1]] [[Opaque 2]]
           eq_refl eq_refl eq_refl eq_refl eq_refl eq_refl).
Defined.

End MoreExamples.
